(** * sortie: relocation of audio objects in an S3 bucket by their ID3 tags

    A shallow embedding of [sortie.py] and the properties of its
    ingestion, staging, path-resolution and publish pipeline.

    Conventions of the embedding.
    - A Python [str] is a Rocq [string]; its characters are the bytes of its
      UTF-8 encoding, so [bytes(name, "utf-8")] is the list of its character
      codes.
    - Python exceptions are values of [Exn]; a computation that may raise
      and that acts on the outside world is a function from the state of
      the world to a result and a new state (the monad [M]).
    - The one [Config] object of a run lives in a heap of objects and is
      handled through its address, since the script shares and mutates it.
    - What one call of a [Logger] writes is given by [log]; the calls that
      the script makes to its loggers are not threaded through the runs,
      the construction of a [Logger] is, since it can raise. The local
      files of the state are the files that the script reads and writes
      as audio files; the console and the log file are not part of it.
    - A path is the string that spells it: the script joins paths with
      a slash and never normalises them.
    - The S3 client, the file system and the template engine are given by
      the environment of a run where the script does not decide what they
      do: the errors of the store, the entries that a removal leaves
      behind when it fails, the rendering of a template that uses more of
      Jinja than the part modelled here. *)

From Stdlib Require Import ZArith Lia Ascii String.
From stdpp Require Import base list strings gmap sorting.

Local Open Scope string_scope.
Local Open Scope Z_scope.

(** ** Python strings *)

Module PyStr.

(** [s.endswith(suffix)] *)
Definition endswith (s suffix : string) : bool :=
  let n := String.length s in
  let k := String.length suffix in
  if (k <=? n)%nat then String.eqb (String.substring (n - k) k s) suffix
  else false.

(** [bytes(s, "utf-8")], each byte as an integer in [0, 256) *)
Definition encode (s : string) : list Z :=
  (λ c, Z.of_N (Ascii.N_of_ascii c)) <$> String.list_ascii_of_string s.

(** the white space that [str.strip()] and [int()] skip (ASCII part) *)
Definition isspace (c : ascii) : bool :=
  let n := Ascii.nat_of_ascii c in
  ((9 <=? n) && (n <=? 13) || (28 <=? n) && (n <=? 32))%nat.

Definition isdigit (c : ascii) : bool :=
  let n := Ascii.nat_of_ascii c in ((48 <=? n) && (n <=? 57))%nat.

Definition isalpha (c : ascii) : bool :=
  let n := Ascii.nat_of_ascii c in
  ((65 <=? n) && (n <=? 90) || (97 <=? n) && (n <=? 122))%nat.

(** [c.lower()] on one ASCII character *)
Definition lower_ascii (c : ascii) : ascii :=
  let n := Ascii.nat_of_ascii c in
  if ((65 <=? n) && (n <=? 90))%nat then Ascii.ascii_of_nat (n + 32) else c.

Fixpoint lower (s : string) : string :=
  match s with
  | EmptyString => EmptyString
  | String c r => String (lower_ascii c) (lower r)
  end.

Fixpoint lstrip (s : string) : string :=
  match s with
  | String c r => if isspace c then lstrip r else s
  | EmptyString => EmptyString
  end.

Definition rstrip (s : string) : string :=
  String.rev (lstrip (String.rev s)).

Definition strip (s : string) : string := rstrip (lstrip s).

End PyStr.

(** ** SHA-1 (hashlib.sha1), on 32-bit words held in [Z] *)

Module Sha1.

Definition mask32 (x : Z) : Z := Z.land x 0xffffffff.

Definition add32 (x y : Z) : Z := mask32 (x + y).

Definition rotl (n x : Z) : Z :=
  mask32 (Z.lor (Z.shiftl x n) (Z.shiftr x (32 - n))).

(** the [n] low bytes of [x], most significant first *)
Fixpoint be_bytes (n : nat) (x : Z) : list Z :=
  match n with
  | O => []
  | S k => Z.land (Z.shiftr x (8 * Z.of_nat k)) 0xff :: be_bytes k x
  end.

(** a big-endian sequence of bytes as a number *)
Definition be_int (bs : list Z) : Z :=
  foldl (λ acc b, Z.lor (Z.shiftl acc 8) b) 0 bs.

(** message, then 0x80, then zeros up to 56 modulo 64, then the length in
    bits on 8 bytes *)
Definition pad (msg : list Z) : list Z :=
  let len := Z.of_nat (length msg) in
  msg ++ [0x80] ++ replicate (Z.to_nat ((55 - len) mod 64)) 0
      ++ be_bytes 8 (8 * len).

Fixpoint chunks (n : nat) (size : nat) (l : list Z) : list (list Z) :=
  match n with
  | O => []
  | S k => take size l :: chunks k size (drop size l)
  end.

(** the message schedule, kept newest first while it is extended *)
Fixpoint extend (n : nat) (rw : list Z) : list Z :=
  match n with
  | O => rw
  | S k =>
      let w i := default 0 (rw !! i) in
      extend k (rotl 1 (Z.lxor (Z.lxor (w 2%nat) (w 7%nat))
                               (Z.lxor (w 13%nat) (w 15%nat))) :: rw)
  end.

Definition schedule (block : list Z) : list Z :=
  let w16 := be_int <$> chunks 16 4 block in
  reverse (extend 64 (reverse w16)).

Definition round_f (i b c d : Z) : Z :=
  if i <? 20 then Z.lor (Z.land b c) (Z.land (Z.lxor b 0xffffffff) d)
  else if i <? 40 then Z.lxor (Z.lxor b c) d
  else if i <? 60 then Z.lor (Z.lor (Z.land b c) (Z.land b d)) (Z.land c d)
  else Z.lxor (Z.lxor b c) d.

Definition round_k (i : Z) : Z :=
  if i <? 20 then 0x5a827999
  else if i <? 40 then 0x6ed9eba1
  else if i <? 60 then 0x8f1bbcdc
  else 0xca62c1d6.

Record regs := Regs { ra : Z; rb : Z; rc : Z; rd : Z; re : Z }.

Definition round (st : Z * regs) (w : Z) : Z * regs :=
  let '(i, Regs a b c d e) := st in
  let t := add32 (add32 (add32 (add32 (rotl 5 a) (round_f i b c d)) e)
                        (round_k i)) w in
  (i + 1, Regs t a (rotl 30 b) c d).

Definition compress (h : regs) (block : list Z) : regs :=
  let '(_, Regs a b c d e) := foldl round (0, h) (schedule block) in
  Regs (add32 (ra h) a) (add32 (rb h) b) (add32 (rc h) c)
       (add32 (rd h) d) (add32 (re h) e).

Definition init : regs :=
  Regs 0x67452301 0xefcdab89 0x98badcfe 0x10325476 0xc3d2e1f0.

(** [hashlib.sha1(msg).digest()], 20 bytes *)
Definition digest (msg : list Z) : list Z :=
  let p := pad msg in
  let h := foldl compress init (chunks (length p / 64) 64 p) in
  be_bytes 4 (ra h) ++ be_bytes 4 (rb h) ++ be_bytes 4 (rc h)
    ++ be_bytes 4 (rd h) ++ be_bytes 4 (re h).

End Sha1.

(** ** uuid.uuid5 and str(UUID) *)

Module Uuid.

(** [uuid.NAMESPACE_OID], as its 16 bytes *)
Definition NAMESPACE_OID : list Z :=
  Sha1.be_bytes 16 0x6ba7b8129dad11d180b400c04fd430c8.

(** [UUID(bytes=b, version=v)]: the 128-bit integer with the RFC 4122
    variant and the version number set *)
Definition UUID (b : list Z) (version : Z) : Z :=
  let i := Sha1.be_int b in
  let i := Z.land i (Z.lnot (Z.shiftl 0xc000 48)) in
  let i := Z.lor i (Z.shiftl 0x8000 48) in
  let i := Z.land i (Z.lnot (Z.shiftl 0xf000 64)) in
  Z.lor i (Z.shiftl version 76).

(** [uuid5(namespace, name)] *)
Definition uuid5 (namespace : list Z) (name : string) : Z :=
  UUID (take 16 (Sha1.digest (namespace ++ PyStr.encode name))) 5.

Definition hexdigit (d : Z) : ascii :=
  if d <? 10 then Ascii.ascii_of_N (Z.to_N (48 + d))
  else Ascii.ascii_of_N (Z.to_N (87 + d)).

(** the [n] low hexadecimal digits of [x], most significant first *)
Fixpoint hex (n : nat) (x : Z) : string :=
  match n with
  | O => EmptyString
  | S k => String (hexdigit (Z.land (Z.shiftr x (4 * Z.of_nat k)) 0xf))
                  (hex k x)
  end.

(** [str(u)]: ['%032x' % u.int] cut as 8-4-4-4-12 *)
Definition str (u : Z) : string :=
  let h := hex 32 u in
  String.substring 0 8 h +:+ "-" +:+ String.substring 8 4 h +:+ "-"
    +:+ String.substring 12 4 h +:+ "-" +:+ String.substring 16 4 h +:+ "-"
    +:+ String.substring 20 12 h.

End Uuid.

(** ** The part of Jinja2 that the destination template uses

    [Template(ref).render(artist=.., album=.., title=..)] for a template
    made of literal text and of [{{ name }}] expressions. A template with
    anything else of Jinja in it (a statement, a comment, a filter, a
    literal, a line break) is outside this model and [Template] gives
    [None] for it; what the engine makes of such a template is left to
    the environment of the run. *)

Module Jinja.

Inductive piece :=
| Data (text : string)
| Name (x : string).

(** names that Jinja does not look up in the context as plain variables:
    constants, operators, the globals of the default environment *)
Definition reserved : list string :=
  ["true"; "false"; "none"; "True"; "False"; "None"; "and"; "or"; "not";
   "in"; "is"; "if"; "else"; "range"; "dict"; "lipsum"; "cycler";
   "joiner"; "namespace"; "self"; "loop"; "super"; "varargs"; "kwargs";
   "caller"].

Definition is_name_char (c : ascii) : bool :=
  PyStr.isalpha c || PyStr.isdigit c || Ascii.eqb c "_".

Definition is_name (x : string) : bool :=
  match x with
  | EmptyString => false
  | String c r =>
      (PyStr.isalpha c || Ascii.eqb c "_")
      && forallb is_name_char (String.list_ascii_of_string r)
      && negb (bool_decide (x ∈ reserved))
  end.

Definition data (racc : list ascii) : list piece :=
  match racc with
  | [] => []
  | _ => [Data (String.string_of_list_ascii (reverse racc))]
  end.

Definition is_line_break (c : ascii) : bool :=
  Ascii.eqb c "010" || Ascii.eqb c "013".

Inductive mode := InData | InVariable.

(** the lexer: [racc] holds, newest first, the characters of the piece
    being read *)
Fixpoint lex (m : mode) (racc : list ascii) (s : string)
  : option (list piece) :=
  match m, s with
  | InData, EmptyString => Some (data racc)
  | InData, String c EmptyString =>
      if is_line_break c then None else Some (data (c :: racc))
  | InData, String c (String c' r as s') =>
      if Ascii.eqb c "{" then
        if Ascii.eqb c' "{" then
          match lex InVariable [] r with
          | Some ps => Some (data racc ++ ps)%list
          | None => None
          end
        else if Ascii.eqb c' "%" || Ascii.eqb c' "#" then None
        else lex InData (c :: racc) s'
      else if is_line_break c then None
      else lex InData (c :: racc) s'
  | InVariable, EmptyString => None
  | InVariable, String c EmptyString => None
  | InVariable, String c (String c' r as s') =>
      if Ascii.eqb c "}" && Ascii.eqb c' "}" then
        let x := PyStr.strip (String.string_of_list_ascii (reverse racc)) in
        if is_name x then
          match lex InData [] r with
          | Some ps => Some (Name x :: ps)
          | None => None
          end
        else None
      else if Ascii.eqb c " " || Ascii.eqb c "009" || is_name_char c
      then lex InVariable (c :: racc) s'
      else None
  end.

(** [Template(source)] *)
Definition Template (source : string) : option (list piece) :=
  lex InData [] source.

(** a value bound to a variable of the context *)
Inductive value :=
| PyNone
| PyStr (s : string).

(** [str(v)], which is how an expression's value is written out *)
Definition to_str (v : value) : string :=
  match v with
  | PyNone => "None"
  | PyStr s => s
  end.

Fixpoint lookup (x : string) (ctx : list (string * value)) : option value :=
  match ctx with
  | [] => None
  | (y, v) :: r => if String.eqb x y then Some v else lookup x r
  end.

(** a variable that the context does not bind is undefined and is
    written out as nothing *)
Definition render_piece (ctx : list (string * value)) (p : piece) : string :=
  match p with
  | Data text => text
  | Name x => from_option to_str "" (lookup x ctx)
  end.

(** [tm.render] with the keyword arguments [ctx] *)
Definition render (tm : list piece) (ctx : list (string * value)) : string :=
  foldr (λ p out, render_piece ctx p +:+ out) "" tm.

End Jinja.

(** ** JSON documents, as [json.load] returns them *)

#[warnings="-register-all"]
Inductive json :=
| JNull
| JBool (b : bool)
| JNumber (n : Z)
| JString (s : string)
| JArray (items : list json)
| JObject (members : list (string * json)).

(** ** Exceptions *)

(** what the boto3 client raises *)
Inductive BotoError :=
| ClientError            (* botocore.exceptions.ClientError *)
| S3UploadFailedError    (* boto3's wrapper of a failed upload *)
| ParamValidationError   (* botocore.exceptions.ParamValidationError: a
                            parameter that the client refuses to send *)
| OtherBotoError.        (* any other error of the client *)

Inductive Exn :=
(* the script's own classes, all of them FatalException *)
| ConfigFileNotPresent
| ConfigMissingKey
| ConfigMissingAWSCLIProfile
| FeatureNotImplemented
| InvalidPermissions
| InvalidValue
(* Python's *)
| AttributeError
| KeyError
| TypeError
| ValueError
| FileNotFoundError
| NotADirectoryError
| OSError
(* the libraries' *)
| Boto (e : BotoError)
| TinyTagException
| TemplateError
(* never raised: an address that designates no object *)
| SystemError.

(** what a piece of code gives: a value, or an exception that it raises *)
Inductive res (A : Type) :=
| Ok (a : A)
| Raise (e : Exn).
Arguments Ok {A} a.
Arguments Raise {A} e.

(** ** The world of a run *)

(** the tags of a file; a tag that the file does not carry is [None] *)
Record TinyTag := {
  artist : option string;
  album : option string;
  title : option string
}.

(** what a file or an object holds, as far as the script looks at it: the
    tags that TinyTag reads from it, or something that TinyTag rejects *)
Inductive Content :=
| Audio (tags : TinyTag)
| Unreadable.

(** the sections and options of an ini file as configparser presents them *)
Abbreviation Ini := (gmap string (gmap string string)).

(** what does not change during a run *)
Record Env := {
  script_dir : string;                      (* directory of sortie.py *)
  ini_files : gmap string Ini;              (* readable ini files, by path *)
  json_files : gmap string (option json);   (* other files, by path; None:
                                               not a JSON document *)
  profiles : list string;                   (* profiles of the AWS CLI *)
  list_fault : option BotoError;            (* errors of the S3 client, *)
  download_fault : string → option BotoError;   (* by key: what the store *)
  upload_fault : string → option BotoError;     (* or the network refuses *)
  delete_fault : string → option BotoError;
  rmtree_fault : option (string → bool);    (* shutil.rmtree cannot finish:
                                               the entries that it removes
                                               before it raises *)
  jinja2 : string → list (string * Jinja.value) → res string
                                            (* what the template engine
                                               gives for a source that
                                               [Jinja] does not read, with
                                               the given variables *)
}.

(** a call of the script to the S3 client *)
Inductive Call :=
| ListObjects (bucket : string)
| Download (bucket key filename : string)
| Upload (filename bucket key : string)
| Delete (bucket key : string).

Record Config := {
  path : string;
  environment : string;
  bucket : string;
  log_to_file : bool;
  max_logging_level : Z;
  log_file : option string;      (* an attribute only if log_to_file *)
  ingestion_mode : string;
  track_list : option string;    (* an attribute only in mode track_list *)
  cache_dir : string;
  sort_mask : string;
  clean_up : bool;
  persistent_cache : bool
}.

Definition set_ingestion_mode (v : string) (c : Config) : Config :=
  {| path := path c; environment := environment c; bucket := bucket c;
     log_to_file := log_to_file c; max_logging_level := max_logging_level c;
     log_file := log_file c; ingestion_mode := v;
     track_list := track_list c; cache_dir := cache_dir c;
     sort_mask := sort_mask c; clean_up := clean_up c;
     persistent_cache := persistent_cache c |}.

Record State := {
  env : Env;
  heap : list Config;              (* the Config objects, by address *)
  dirs : gset string;              (* local directories, by path *)
  files : gmap string Content;     (* local files, by path *)
  objects : list (string * Content);  (* the bucket: its keys and objects *)
  trace : list Call                (* the calls made so far, oldest first *)
}.

Definition set_heap (h : list Config) (s : State) : State :=
  {| env := env s; heap := h; dirs := dirs s; files := files s;
     objects := objects s; trace := trace s |}.

Definition set_local (d : gset string) (f : gmap string Content) (s : State)
  : State :=
  {| env := env s; heap := heap s; dirs := d; files := f;
     objects := objects s; trace := trace s |}.

Definition set_objects (o : list (string * Content)) (s : State) : State :=
  {| env := env s; heap := heap s; dirs := dirs s; files := files s;
     objects := o; trace := trace s |}.

Definition set_trace (t : list Call) (s : State) : State :=
  {| env := env s; heap := heap s; dirs := dirs s; files := files s;
     objects := objects s; trace := t |}.

(** ** Computations that act on the world and may raise *)

Definition M (A : Type) : Type := State → res A * State.

#[global] Instance M_ret : MRet M := λ A a s, (Ok a, s).

#[global] Instance M_bind : MBind M := λ A B f m s,
  match m s with
  | (Ok a, s') => f a s'
  | (Raise e, s') => (Raise e, s')
  end.

#[global] Instance M_fmap : FMap M := λ A B f m, a ← m; mret (f a).

Definition raise {A} (e : Exn) : M A := λ s, (Raise e, s).

Definition get : M State := λ s, (Ok s, s).

Definition modify (f : State → State) : M unit := λ s, (Ok tt, f s).

(** a result that raises or not, in a computation *)
Definition lift {A} (r : res A) : M A := λ s, (r, s).

(** [try: m] followed by [except exceptions.ClientError: raise e] *)
Definition except_ClientError {A} (m : M A) (e : Exn) : M A := λ s,
  match m s with
  | (Raise (Boto ClientError), s') => (Raise e, s')
  | r => r
  end.

(** [for x in l: f x] *)
Fixpoint for_each {A} (f : A → M unit) (l : list A) : M unit :=
  match l with
  | [] => mret tt
  | x :: r => f x ;; for_each f r
  end.

(** [out = []], then [for x in l: out.append(f x)] *)
Fixpoint for_collect {A B} (f : A → M B) (l : list A) : M (list B) :=
  match l with
  | [] => mret []
  | x :: r => y ← f x; ys ← for_collect f r; mret (y :: ys)
  end.

(** reading an attribute that the object may not have *)
Definition getattr {A} (a : option A) : M A :=
  match a with
  | Some v => mret v
  | None => raise AttributeError
  end.

Definition address := nat.

Definition alloc (c : Config) : M address := λ s,
  (Ok (length (heap s)), set_heap (heap s ++ [c]) s).

Definition deref (r : address) : M Config :=
  s ← get;
  match heap s !! r with
  | Some c => mret c
  | None => raise SystemError
  end.

Definition assign (r : address) (f : Config → Config) : M unit :=
  c ← deref r;
  modify (λ s, set_heap (<[r := f c]> (heap s)) s).

Definition record_call (c : Call) : M unit :=
  modify (λ s, set_trace (trace s ++ [c]) s).

(** ** class Config *)

(** [distutils.util.strtobool] *)
Definition strtobool (val : string) : M Z :=
  let val := PyStr.lower val in
  if bool_decide (val ∈ ["y"; "yes"; "t"; "true"; "on"; "1"]) then mret 1
  else if bool_decide (val ∈ ["n"; "no"; "f"; "false"; "off"; "0"]) then mret 0
  else raise ValueError.

(** the digits of a decimal literal, where one underscore may stand between
    two digits *)
Fixpoint int_digits (acc : Z) (after_digit : bool) (s : string) : option Z :=
  match s with
  | EmptyString => if after_digit then Some acc else None
  | String c r =>
      if PyStr.isdigit c
      then int_digits (10 * acc + (Z.of_nat (Ascii.nat_of_ascii c) - 48)) true r
      else if Ascii.eqb c "_" && after_digit then int_digits acc false r
      else None
  end.

(** [int(val)] on a string of ASCII characters *)
Definition int (val : string) : M Z :=
  let parsed :=
    match PyStr.strip val with
    | String "-" r => Z.opp <$> int_digits 0 false r
    | String "+" r => int_digits 0 false r
    | r => int_digits 0 false r
    end in
  match parsed with
  | Some n => mret n
  | None => raise ValueError
  end.

Definition str2bool (val : string) : M bool :=
  n ← strtobool val; mret (negb (n =? 0)).

Definition sane_get (parser : Ini) (header key : string) : M string :=
  match parser !! header ≫= (.!! key) with
  | Some val => mret val
  | None => raise ConfigMissingKey
  end.

(** [os.path.exists] *)
Definition path_exists (p : string) : M bool :=
  s ← get; mret (bool_decide (p ∈ dirs s) || bool_decide (is_Some (files s !! p))).

(** [os.mkdir], where the directory can be made *)
Definition mkdir (p : string) : M unit :=
  modify (λ s, set_local ({[p]} ∪ dirs s) (files s) s).

(** [Config(filepath)]: the address of the new object *)
Definition Config_init (filepath : string) : M address :=
  s ← get;
  match ini_files (env s) !! filepath with
  | None => raise ConfigFileNotPresent
  | Some parser =>
      environment ← sane_get parser "aws" "environment";
      bucket ← sane_get parser "bucket" "name";
      log_to_file ← sane_get parser "logging" "log_to_file" ≫= str2bool;
      max_logging_level ← sane_get parser "logging" "logging_level" ≫= int;
      log_file ←
        (if log_to_file : bool
         then Some <$> sane_get parser "logging" "log_file"
         else mret None);
      ingestion_mode ← sane_get parser "ingestion" "mode";
      track_list ←
        (if String.eqb ingestion_mode "track_list"
         then Some <$> sane_get parser "ingestion" "track_list"
         else mret None);
      cache_dir ← sane_get parser "cache" "directory";
      present ← path_exists cache_dir;
      (if present : bool then mret tt else mkdir cache_dir);;
      sort_mask ← sane_get parser "targeting" "sort_mask";
      clean_up ← sane_get parser "targeting" "clean_up" ≫= str2bool;
      persistent_cache ← sane_get parser "cache" "persistent" ≫= str2bool;
      alloc {| path := filepath; environment := environment; bucket := bucket;
               log_to_file := log_to_file;
               max_logging_level := max_logging_level;
               log_file := log_file; ingestion_mode := ingestion_mode;
               track_list := track_list; cache_dir := cache_dir;
               sort_mask := sort_mask; clean_up := clean_up;
               persistent_cache := persistent_cache |}
  end.

(** ** class Logger *)

Record Logger := {
  mask_name : string;
  verbosity : Z;
  logger_log_to_file : bool;
  logger_log_file : string
}.

(** [Logger(mask_name, config)] *)
Definition Logger_init (mask_name : string) (config : address) : M Logger :=
  c ← deref config;
  let verbosity := max_logging_level c in
  let to_file := log_to_file c in
  file ← getattr (log_file c);
  mret {| mask_name := mask_name; verbosity := verbosity;
          logger_log_to_file := to_file; logger_log_file := file |}.

(** the verbosity channels *)
Inductive ERR := FATAL | INFO | WARN | DEBUG.

Definition ERR_value (e : ERR) : Z :=
  match e with
  | FATAL => 1
  | INFO => 2
  | WARN => 3
  | DEBUG => 4
  end.

Definition ERR_name (e : ERR) : string :=
  match e with
  | FATAL => "FATAL"
  | INFO => "INFO"
  | WARN => "WARN"
  | DEBUG => "DEBUG"
  end.

Definition ERR_eqb (e e' : ERR) : bool := ERR_value e =? ERR_value e'.

Inductive Stream := stdout | stderr.

(** what a logger writes: a line printed on a stream, or appended to a file *)
Inductive Output :=
| Print (stream : Stream) (text : string)
| Append (file text : string).

Definition tab : string := String "009" EmptyString.
Definition newline : string := String "010" EmptyString.

Definition write_logfile (self : Logger) (msg : string) : list Output :=
  if logger_log_to_file self
  then [Append (logger_log_file self) (msg +:+ newline)]
  else [].

(** [self.log(err_class, msg)], when [get8601()] returns [now] *)
Definition log (self : Logger) (now : string) (err_class : ERR) (msg : string)
  : list Output :=
  let msg := "[" +:+ now +:+ "]" +:+ tab +:+ "[" +:+ ERR_name err_class +:+ "]"
             +:+ tab +:+ "[" +:+ mask_name self +:+ "] " +:+ msg in
  ((if ERR_eqb err_class INFO && (ERR_value err_class <=? verbosity self)
    then Print stdout msg :: write_logfile self msg else [])
   ++ (if ERR_eqb err_class WARN && (ERR_value err_class <=? verbosity self)
       then Print stderr msg :: write_logfile self msg else [])
   ++ (if ERR_eqb err_class FATAL
       then Print stderr msg :: write_logfile self msg else [])
   ++ (if ERR_eqb err_class DEBUG && (ERR_value err_class <=? verbosity self)
       then Print stdout msg :: write_logfile self msg else []))%list.

(** ** class S3io *)

Record S3io := {
  s3_config : address;
  s3_slog : Logger
}.

(** [S3io(config)] *)
Definition S3io_init (config : address) : M S3io :=
  slog ← Logger_init "S3 Orchestrator" config;
  c ← deref config;
  s ← get;
  (if bool_decide (environment c ∈ profiles (env s)) then mret tt
   else raise ConfigMissingAWSCLIProfile);;
  mret {| s3_config := config; s3_slog := slog |}.

(** the keys in the order in which the store lists them, the order of
    their bytes *)
Fixpoint insert_key (key : string) (sorted : list string) : list string :=
  match sorted with
  | [] => [key]
  | k :: r => if String.leb key k then key :: sorted else k :: insert_key key r
  end.

Definition listing_order (keys : list string) : list string :=
  foldr insert_key [] keys.

(** the pages of [list_objects_v2]: an empty bucket gives one page without
    the key Contents *)
Definition paginate (bucket_name : string) : M (list string) :=
  record_call (ListObjects bucket_name);;
  s ← get;
  match list_fault (env s) with
  | Some e => raise (Boto e)
  | None =>
      match objects s with
      | [] => raise KeyError
      | items => mret (listing_order (fst <$> items))
      end
  end.

Definition list_bucket_contents (self : S3io) (bucket_name : string)
  : M (list string) :=
  except_ClientError (paginate bucket_name) InvalidPermissions.

(** what precedes the last slash of [p]; [None] when [p] has no slash *)
Fixpoint parent (p : string) : option string :=
  match p with
  | EmptyString => None
  | String c r =>
      match parent r with
      | Some d => Some (String c d)
      | None => if Ascii.eqb c "/" then Some EmptyString else None
      end
  end.

(** a file can be created at [p]: the directory in which [p] lies is
    there; it always is when it is the working directory or the root *)
Definition creatable (p : string) (s : State) : res unit :=
  match parent p with
  | None | Some EmptyString => Ok tt
  | Some d =>
      if bool_decide (d ∈ dirs s) then Ok tt
      else if bool_decide (is_Some (files s !! d)) then Raise NotADirectoryError
      else Raise FileNotFoundError
  end.

(** [self.client.download_file]. The client refuses an empty key before it
    sends anything; a key that the bucket does not have is answered 404, a
    ClientError; the object is then written into a new file, which takes
    the place of [filename] *)
Definition client_download_file (bucket key filename : string) : M unit :=
  record_call (Download bucket key filename);;
  s ← get;
  if String.eqb key "" then raise (Boto ParamValidationError)
  else
    match download_fault (env s) key with
    | Some e => raise (Boto e)
    | None =>
        match list_to_map (M := gmap string Content) (objects s) !! key with
        | None => raise (Boto ClientError)
        | Some content =>
            lift (creatable filename s);;
            modify (λ s,
              set_local (dirs s) (<[filename := content]> (files s)) s)
        end
    end.

Definition download_file (self : S3io) (remote_filename local_filename : string)
  : M unit :=
  c ← deref (s3_config self);
  except_ClientError
    (client_download_file (bucket c) remote_filename local_filename)
    InvalidPermissions.

(** the bucket with [content] under [key], in the place of the object that
    was there or else as one more object *)
Fixpoint put_object (key : string) (content : Content)
    (l : list (string * Content)) : list (string * Content) :=
  match l with
  | [] => [(key, content)]
  | (k, c) :: r =>
      if String.eqb k key then (key, content) :: r
      else (k, c) :: put_object key content r
  end.

(** [self.client.upload_file]. The size of the file is taken first; the
    client then refuses an empty key before it sends anything *)
Definition client_upload_file (filename bucket key : string) : M unit :=
  record_call (Upload filename bucket key);;
  s ← get;
  match files s !! filename with
  | None => raise FileNotFoundError
  | Some content =>
      if String.eqb key "" then raise (Boto ParamValidationError)
      else
        match upload_fault (env s) key with
        | Some e => raise (Boto e)
        | None =>
            modify (λ s, set_objects (put_object key content (objects s)) s)
        end
  end.

Definition upload_file (self : S3io) (local_filename object_name : string)
  : M unit :=
  c ← deref (s3_config self);
  client_upload_file local_filename (bucket c) object_name.

(** [self.client.delete_object]. The client refuses an empty key before it
    sends anything; S3 answers the same whether or not the object was
    there *)
Definition client_delete_object (bucket key : string) : M unit :=
  record_call (Delete bucket key);;
  s ← get;
  if String.eqb key "" then raise (Boto ParamValidationError)
  else
    match delete_fault (env s) key with
    | Some e => raise (Boto e)
    | None =>
        modify (λ s,
          set_objects (filter (λ o, negb (String.eqb (fst o) key)) (objects s))
                      s)
    end.

Definition delete_file (self : S3io) (object_name : string) : M unit :=
  c ← deref (s3_config self);
  client_delete_object (bucket c) object_name.

(** ** class TrackLister *)

Record TrackLister := {
  tl_config : address;
  tl_slog : Logger;
  tl_mode : string;
  tl_tracks : list string
}.

(** [data['input']] *)
Definition subscript_input (data : json) : M json :=
  match data with
  | JObject members =>
      match last (filter (λ m, String.eqb (fst m) "input") members) with
      | Some m => mret (snd m)
      | None => raise KeyError
      end
  | _ => raise TypeError
  end.

(** the keys of a dict, each once, in the order of their first occurrence *)
Fixpoint dict_keys (seen : list string) (members : list (string * json))
  : list string :=
  match members with
  | [] => []
  | (k, _) :: r =>
      if bool_decide (k ∈ seen) then dict_keys seen r
      else k :: dict_keys (k :: seen) r
  end.

(** the values that [for track in v] runs through *)
Definition iterate (v : json) : M (list json) :=
  match v with
  | JArray items => mret items
  | JString s =>
      mret ((λ c, JString (String c EmptyString))
              <$> String.list_ascii_of_string s)
  | JObject members => mret (JString <$> dict_keys [] members)
  | _ => raise TypeError
  end.

(** the body of the loop of [ingest_trackfile]: only a string has the
    method endswith *)
Fixpoint keep_tracks (items : list json) : M (list string) :=
  match items with
  | [] => mret []
  | JString track :: r =>
      tracks ← keep_tracks r;
      mret (if PyStr.endswith track ".mp3" then track :: tracks else tracks)
  | _ :: _ => raise AttributeError
  end.

Definition ingest_trackfile (filepath : string) : M (list string) :=
  s ← get;
  match json_files (env s) !! filepath with
  | None => raise FileNotFoundError
  | Some None => raise ValueError        (* json.JSONDecodeError *)
  | Some (Some data) =>
      input ← subscript_input data;
      items ← iterate input;
      keep_tracks items
  end.

(** what follows the last slash of [p], when [tail] is what follows the
    last slash of the part already read *)
Fixpoint after_last_slash (tail p : string) : string :=
  match p with
  | EmptyString => tail
  | String c r =>
      if Ascii.eqb c "/" then after_last_slash r r else after_last_slash tail r
  end.

(** [os.path.basename] *)
Definition basename (p : string) : string := after_last_slash p p.

(** the names of the files that [os.walk(directory)] comes across, in the
    order in which the map of the files lists them *)
Definition walk_files (directory : string) (s : State) : list string :=
  basename <$>
    filter (λ p, String.prefix (directory +:+ "/") p = true)
           (fst <$> map_to_list (files s)).

Definition ingest_cache (directory : string) : M (list string) :=
  s ← get;
  mret (filter (λ file, PyStr.endswith file ".mp3" = true)
               (walk_files directory s)).

Definition ingest_s3 (orchestrator : option S3io) : M (list string) :=
  orchestrator ← getattr orchestrator;
  c ← deref (s3_config orchestrator);
  contents ← list_bucket_contents orchestrator (bucket c);
  mret (filter (λ item, negb (PyStr.endswith item "/")
                        && PyStr.endswith item ".mp3" = true) contents).

(** [TrackLister(config=config, orchestrator=orchestrator)]; without the
    keyword, [kwargs.get('orchestrator')] is None *)
Definition TrackLister_init (config : address) (orchestrator : option S3io)
  : M TrackLister :=
  slog ← Logger_init "TrackLister" config;
  c ← deref config;
  let mode := ingestion_mode c in
  tracks ←
    (if String.eqb mode "track_list" then
       c ← deref config;
       list_file ← getattr (track_list c);
       ingest_trackfile list_file
     else if String.eqb mode "dynamic" then
       ingest_s3 orchestrator
     else if String.eqb mode "cache" then
       c ← deref config;
       ingest_cache (cache_dir c)
     else raise InvalidValue);
  mret {| tl_config := config; tl_slog := slog; tl_mode := mode;
          tl_tracks := tracks |}.

(** ** class TrackConverter *)

Record TrackConverter := {
  local_path : string;
  tags : TinyTag;
  target_path : string
}.

(** [TinyTag.get(filepath)] *)
Definition load_tags (filepath : string) : M TinyTag :=
  s ← get;
  match files s !! filepath with
  | None => raise FileNotFoundError
  | Some Unreadable => raise TinyTagException
  | Some (Audio tags) => mret tags
  end.

(** a tag as the keyword argument given to [render] *)
Definition tag_value (t : option string) : Jinja.value :=
  match t with
  | None => Jinja.PyNone
  | Some s => Jinja.PyStr s
  end.

(** [self.load_target_template(ref)], where the template engine is that of
    [e] for the templates that [Jinja] does not read *)
Definition load_target_template (e : Env) (tags : TinyTag) (ref : string)
  : res string :=
  let ctx := [("artist", tag_value (artist tags));
              ("album", tag_value (album tags));
              ("title", tag_value (title tags))] in
  match Jinja.Template ref with
  | None => jinja2 e ref ctx
  | Some tm => Ok (Jinja.render tm ctx)
  end.

(** [TrackConverter(config, filepath)] *)
Definition TrackConverter_init (config : address) (filepath : string)
  : M TrackConverter :=
  slog ← Logger_init "TrackConverter" config;
  tags ← load_tags filepath;
  c ← deref config;
  s ← get;
  target_path ← lift (load_target_template (env s) tags (sort_mask c));
  mret {| local_path := filepath; tags := tags; target_path := target_path |}.

(** ** The helpers of Main *)

(** the name under which [track] is staged: [str(uuid5(NAMESPACE_OID,
    track))] followed by .mp3 *)
Definition stage_name (track : string) : string :=
  Uuid.str (Uuid.uuid5 Uuid.NAMESPACE_OID track) +:+ ".mp3".

(** the second argument of [client.download_file] in [download_all_tracks] *)
Definition local_filename (cache_dir track : string) : string :=
  cache_dir +:+ "/" +:+ stage_name track.

Definition download_all_tracks (config : address) (client : S3io)
    (tracks : list string) : M unit :=
  for_each (λ track,
      c ← deref config;
      download_file client track (local_filename (cache_dir c) track))
    tracks.

Definition upload_all_tracks (client : S3io) (tracks : list TrackConverter)
  : M unit :=
  for_each (λ track, upload_file client (local_path track) (target_path track))
    tracks.

Definition delete_source_tracks (client : S3io) (tracks : list string)
  : M unit :=
  for_each (λ track, delete_file client track) tracks.

Definition slurp_cache (slog : Logger) (config : address)
  : M (list TrackConverter) :=
  (* cacheconf is the object that config is *)
  let cacheconf := config in
  assign cacheconf (set_ingestion_mode "cache");;
  cache_lister ← TrackLister_init cacheconf None;
  c ← deref cacheconf;
  cache_list ← ingest_cache (cache_dir c);
  for_collect (λ track,
      c ← deref cacheconf;
      TrackConverter_init config (cache_dir c +:+ "/" +:+ track))
    cache_list.

(** [shutil.rmtree(directory, ignore_errors=False)]. It removes what is
    under the directory and then the directory; at the first entry that it
    cannot remove it raises, and what it has removed by then is gone *)
Definition rmtree (directory : string) : M unit :=
  s ← get;
  let inside (p : string) := String.prefix (directory +:+ "/") p in
  if bool_decide (directory ∈ dirs s) then
    match rmtree_fault (env s) with
    | None =>
        modify (λ s,
          set_local (filter (λ d, d ≠ directory ∧ inside d = false) (dirs s))
                    (filter (λ kv, inside (fst kv) = false) (files s)) s)
    | Some removed =>
        modify (λ s,
          set_local
            (filter (λ d, ¬ (inside d = true ∧ removed d = true)) (dirs s))
            (filter (λ kv, ¬ (inside (fst kv) = true ∧ removed (fst kv) = true))
                    (files s)) s);;
        raise OSError
    end
  else if bool_decide (is_Some (files s !! directory))
  then raise NotADirectoryError
  else raise FileNotFoundError.

(** ** Main *)

Definition Main : M unit :=
  s ← get;
  config ← Config_init (script_dir (env s) +:+ "/conf/sortie.ini");
  slog ← Logger_init "sortie" config;
  client ← S3io_init config;
  c ← deref config;
  source_lister ←
    (if String.eqb (ingestion_mode c) "dynamic"
     then TrackLister_init config (Some client)
     else TrackLister_init config None);
  c ← deref config;
  (if negb (String.eqb (ingestion_mode c) "cache")
   then download_all_tracks config client (tl_tracks source_lister)
   else mret tt);;
  cache_list ← slurp_cache slog config;
  upload_all_tracks client cache_list;;
  c ← deref config;
  (if clean_up c && negb (String.eqb (ingestion_mode c) "cache")
   then delete_source_tracks client (tl_tracks source_lister)
   else mret tt);;
  c ← deref config;
  (if negb (persistent_cache c) then rmtree (cache_dir c) else mret tt).

(** ** What is observed of a run *)

Definition is_delete (c : Call) : bool :=
  match c with
  | Delete _ _ => true
  | _ => false
  end.

(** the delete calls made so far *)
Definition deletes (s : State) : list Call :=
  filter (λ c, is_delete c = true) (trace s).

(** the state in which a run starts: no object yet, no call made yet *)
Definition initial (s : State) : Prop := heap s = [] ∧ trace s = [].

(** two states in which [f] is the same *)
Definition same {B} (f : State → B) : relation State := λ s s', f s' = f s.

(** [m] takes every state to one related to it by [R], whether it returns
    or raises *)
Definition always {A} (R : relation State) (m : M A) : Prop :=
  ∀ s, R s (m s).2.

(** the same, for the runs of [m] that return *)
Definition on_return {A} (R : relation State) (m : M A) : Prop :=
  ∀ s a s', m s = (Ok a, s') → R s s'.

(** nothing local is lost, and every download made has its file *)
Definition staged (s s' : State) : Prop :=
  dirs s ⊆ dirs s'
  ∧ (∀ p, is_Some (files s !! p) → is_Some (files s' !! p))
  ∧ (∀ b k f, Download b k f ∈ trace s' →
       Download b k f ∈ trace s ∨ is_Some (files s' !! f)).

(** nothing local has been removed: the directories and the files of [s]
    are there in [s'] *)
Definition untouched (s s' : State) : Prop :=
  dirs s ⊆ dirs s' ∧ ∀ p, is_Some (files s !! p) → is_Some (files s' !! p).

(** the object at address [r] stays, with all its attributes but the
    ingestion mode *)
Definition same_settings (r : address) (s s' : State) : Prop :=
  ∀ c, heap s !! r = Some c →
    ∃ c', heap s' !! r = Some c'
      ∧ set_ingestion_mode "" c' = set_ingestion_mode "" c.

(** what every step of a run but the removal of the cache keeps: nothing
    local is removed, the settings and the environment are the same *)
Definition kept (config : address) (s s' : State) : Prop :=
  untouched s s' ∧ same_settings config s s' ∧ env s' = env s.

(** the template with [σ x] written in the place of every [{{ x }}]: what
    the specification calls substitution *)
Definition substituted (σ : string → string) (tm : list Jinja.piece) : string :=
  foldr (λ p out,
           match p with
           | Jinja.Data text => text
           | Jinja.Name x => σ x
           end +:+ out) "" tm.

(** a file without any of the three tags *)
Definition no_tags : TinyTag :=
  {| artist := None; album := None; title := None |}.

(** the value of an option of an ini file, if the file has it *)
Definition ini_option (parser : Ini) (header key : string) : option string :=
  parser !! header ≫= (.!! key).

(** the state itself, as what a computation may leave as it is *)
Definition whole (s : State) : State := s.

(** the phase of the pipeline to which a call belongs *)
Definition phase (c : Call) : nat :=
  match c with
  | ListObjects _ => 0
  | Download _ _ _ => 1
  | Upload _ _ _ => 2
  | Delete _ _ => 3
  end.

(** [s'] has the calls of [s] and then calls that all satisfy [P] *)
Definition extends (P : Call → Prop) (s s' : State) : Prop :=
  ∃ t, trace s' = (trace s ++ t)%list ∧ Forall P t.

(** calls in the order of their phases, none of a phase before [k] *)
Definition in_order (k : nat) (t : list Call) : Prop :=
  StronglySorted (λ c c', phase c ≤ phase c')%nat t
  ∧ Forall (λ c, k ≤ phase c)%nat t.

(** [m] adds calls in the order of their phases, from phase [k] on *)
Definition ordered_from {A} (k : nat) (m : M A) : Prop :=
  ∀ s, ∃ t, trace (m s).2 = (trace s ++ t)%list ∧ in_order k t.

(** the object that the bucket holds under [key] *)
Definition object_at (key : string) (s : State) : option Content :=
  list_to_map (M := gmap string Content) (objects s) !! key.

(** the bits of the SHA-1 digest of [name] in [namespace] that its UUID of
    version 5 keeps: the first 128, less the six in the place of which the
    version and the variant are written *)
Definition retained (namespace : list Z) (name : string) : Z :=
  Z.land (Sha1.be_int (take 16 (Sha1.digest (namespace ++ PyStr.encode name))))
         (Z.lnot (Z.lor (Z.shiftl 0xc000 48) (Z.shiftl 0xf000 64))).

(** the call by which [track] is staged in the cache of [c], from the
    bucket of [c'] *)
Definition download_call (c c' : Config) (track : string) : Call :=
  Download (bucket c') track (local_filename (cache_dir c) track).

(** the error with which [download_file] answers for [key] in [s], when the
    store client does not give the object *)
Definition download_refusal (s : State) (key : string) : option Exn :=
  if String.eqb key "" then Some (Boto ParamValidationError)
  else
    match download_fault (env s) key with
    | Some ClientError => Some InvalidPermissions
    | Some e => Some (Boto e)
    | None =>
        match object_at key s with
        | None => Some InvalidPermissions
        | Some _ => None
        end
    end.

(** every character of [s] satisfies [P] *)
Fixpoint all_chars (P : ascii → bool) (s : string) : bool :=
  match s with
  | EmptyString => true
  | String c r => P c && all_chars P r
  end.

Definition not_slash (c : ascii) : bool := negb (Ascii.eqb c "/").

(** the characters that the lexer of the template takes as plain text
    wherever they stand *)
Definition plain (c : ascii) : bool :=
  negb (Ascii.eqb c "{") && negb (Jinja.is_line_break c).



(** ** A sample world

    The script is installed in /opt/sortie; the bucket "tunes" and the
    manifest /srv/tracks.json are those of the end-to-end scenario of the
    specification. *)

Definition sample_ini (log_to_file mode sort_mask clean_up persistent : string)
  : Ini :=
  list_to_map
    [("aws", list_to_map [("environment", "default")]);
     ("bucket", list_to_map [("name", "tunes")]);
     ("logging",
       list_to_map ([("log_to_file", log_to_file); ("logging_level", "4")]
                    ++ if String.eqb log_to_file "true"
                       then [("log_file", "/var/log/sortie.log")] else []));
     ("ingestion",
       list_to_map [("mode", mode); ("track_list", "/srv/tracks.json")]);
     ("cache",
       list_to_map [("directory", "/tmp/cache"); ("persistent", persistent)]);
     ("targeting",
       list_to_map [("sort_mask", sort_mask); ("clean_up", clean_up)])].

Definition sample_manifest : json :=
  JObject [("input", JArray [JString "music/01.mp3";
                             JString "music/notes.txt"])].

Definition sample_env (ini : Ini) : Env :=
  {| script_dir := "/opt/sortie";
     ini_files := {[ "/opt/sortie/conf/sortie.ini" := ini ]};
     json_files := {[ "/srv/tracks.json" := Some sample_manifest ]};
     profiles := ["default"];
     list_fault := None;
     download_fault := λ _, None;
     upload_fault := λ _, None;
     delete_fault := λ _, None;
   rmtree_fault := None;
     jinja2 := λ _ _, Raise TemplateError |}.

(** the world before a run: the bucket holds [objects], the cache directory
    exists if it holds [files] *)
Definition sample_world (ini : Ini) (objects : list (string * Content))
    (files : gmap string Content) : State :=
  {| env := sample_env ini; heap := [];
     dirs := if decide (files = ∅) then ∅ else {[ "/tmp/cache" ]};
     files := files; objects := objects; trace := [] |}.

(** the same world with a store client that answers with these errors *)
Definition with_faults (on_list : option BotoError)
    (on_download on_upload : string → option BotoError) (s : State) : State :=
  {| env := {| script_dir := script_dir (env s);
               ini_files := ini_files (env s);
               json_files := json_files (env s);
               profiles := profiles (env s);
               list_fault := on_list;
               download_fault := on_download;
               upload_fault := on_upload;
               delete_fault := delete_fault (env s);
               rmtree_fault := rmtree_fault (env s);
               jinja2 := jinja2 (env s) |};
     heap := heap s; dirs := dirs s; files := files s;
     objects := objects s; trace := trace s |}.


(** the same world with [manifest] in the manifest file *)
Definition with_manifest (manifest : json) (s : State) : State :=
  {| env := {| script_dir := script_dir (env s);
               ini_files := ini_files (env s);
               json_files := {[ "/srv/tracks.json" := Some manifest ]};
               profiles := profiles (env s);
               list_fault := list_fault (env s);
               download_fault := download_fault (env s);
               upload_fault := upload_fault (env s);
               delete_fault := delete_fault (env s);
               rmtree_fault := rmtree_fault (env s);
               jinja2 := jinja2 (env s) |};
     heap := heap s; dirs := dirs s; files := files s;
     objects := objects s; trace := trace s |}.


(** the world once [Config] has read the sample ini file; the object is at
    address 0 *)
Definition configured (s : State) : State :=
  (Config_init "/opt/sortie/conf/sortie.ini" s).2.

Definition sample_client : S3io :=
  {| s3_config := 0%nat;
     s3_slog := {| mask_name := "S3 Orchestrator"; verbosity := 4;
                   logger_log_to_file := true;
                   logger_log_file := "/var/log/sortie.log" |} |}.

Definition tagged (artist album title : string) : Content :=
  Audio {| artist := Some artist; album := Some album; title := Some title |}.

Definition sample_bucket : list (string * Content) :=
  [("music/01.mp3", tagged "A" "B" "C"); ("music/notes.txt", Unreadable)].

Definition standard_mask : string := "{{artist}}/{{album}}/{{title}}.mp3".

(** ** The model on known values *)

Example sha1_abc :
  Uuid.hex 40 (Sha1.be_int (Sha1.digest (PyStr.encode "abc")))
  = "a9993e364706816aba3e25717850c26c9cd0d89d".
Proof. vm_compute. reflexivity. Qed.

Example sha1_two_blocks :
  Uuid.hex 40 (Sha1.be_int (Sha1.digest (replicate 70 97)))
  = "ed6c69d9e8b4373af86303dfaa3528dfbc129902".
Proof. vm_compute. reflexivity. Qed.

Example uuid5_music_01 :
  Uuid.str (Uuid.uuid5 Uuid.NAMESPACE_OID "music/01.mp3")
  = "00c52942-9caa-5ad8-a2d1-592afeef78a2".
Proof. vm_compute. reflexivity. Qed.

Example uuid5_empty_name :
  Uuid.str (Uuid.uuid5 Uuid.NAMESPACE_OID "")
  = "0a68eb57-c88a-5f34-9e9d-27f85e68af4f".
Proof. vm_compute. reflexivity. Qed.

Example listing_order_example :
  listing_order ["b/1.mp3"; "a/2.mp3"; "a"; "B"; "a/10.mp3"]
  = ["B"; "a"; "a/10.mp3"; "a/2.mp3"; "b/1.mp3"].
Proof. vm_compute. reflexivity. Qed.

Example parent_examples :
  parent "/tmp/cache/a.mp3" = Some "/tmp/cache"
  ∧ parent "/a.mp3" = Some ""
  ∧ parent "a.mp3" = None
  ∧ parent "/tmp/cache//a.mp3" = Some "/tmp/cache/".
Proof. vm_compute. done. Qed.

Example template_example :
  Jinja.Template "{{artist}}/{{ album }}/{{title}}.mp3"
  = Some [Jinja.Name "artist"; Jinja.Data "/"; Jinja.Name "album";
          Jinja.Data "/"; Jinja.Name "title"; Jinja.Data ".mp3"].
Proof. vm_compute. reflexivity. Qed.

Example template_outside_the_model :
  Jinja.Template "{{ artist|upper }}" = None
  ∧ Jinja.Template "{% if artist %}x{% endif %}" = None
  ∧ Jinja.Template "{{ artist" = None.
Proof. vm_compute. done. Qed.

Example int_examples :
  (int " 4 " (sample_world ∅ [] ∅)).1 = Ok 4
  ∧ (int "-1_0" (sample_world ∅ [] ∅)).1 = Ok (-10)
  ∧ (int "1__0" (sample_world ∅ [] ∅)).1 = Raise ValueError
  ∧ (int "" (sample_world ∅ [] ∅)).1 = Raise ValueError.
Proof. vm_compute. done. Qed.

(** the end-to-end scenario of the specification, with clean_up off *)
Example end_to_end :
  let w := sample_world
             (sample_ini "true" "track_list" standard_mask "false" "true")
             sample_bucket ∅ in
  (Main w).1 = Ok tt
  ∧ trace (Main w).2
    = [Download "tunes" "music/01.mp3"
         "/tmp/cache/00c52942-9caa-5ad8-a2d1-592afeef78a2.mp3";
       Upload "/tmp/cache/00c52942-9caa-5ad8-a2d1-592afeef78a2.mp3"
         "tunes" "A/B/C.mp3"].
Proof. vm_compute. done. Qed.

(** ** Rules for [always] and [on_return] *)

#[global] Instance same_preorder {B} (f : State → B) : PreOrder (same f).
Proof.
  split.
  - by intros s.
  - intros s1 s2 s3 H1 H2. unfold same in *. congruence.
Qed.

#[global] Instance staged_preorder : PreOrder staged.
Proof.
  split.
  - intros s. unfold staged. naive_solver.
  - intros s1 s2 s3 (Hd1 & Hf1 & Ht1) (Hd2 & Hf2 & Ht2). split_and!.
    + set_solver.
    + naive_solver.
    + intros b k f Hin. destruct (Ht2 b k f Hin) as [Hin'|?]; [|by right].
      destruct (Ht1 b k f Hin') as [?|?]; [by left | right; by apply Hf2].
Qed.

#[global] Instance same_settings_preorder r : PreOrder (same_settings r).
Proof.
  split.
  - intros s c Hc. by exists c.
  - intros s1 s2 s3 H1 H2 c Hc.
    destruct (H1 c Hc) as (c' & Hc' & E1).
    destruct (H2 c' Hc') as (c'' & Hc'' & E2).
    exists c''. split; [done | congruence].
Qed.

Section Rules.
Context (R : relation State) `{!PreOrder R}.

Lemma always_ret {A} (a : A) : always R (mret a).
Proof. by intros s. Qed.

Lemma always_raise {A} (e : Exn) : always R (raise (A := A) e).
Proof. by intros s. Qed.

Lemma always_get : always R get.
Proof. by intros s. Qed.

Lemma always_lift {A} (r : res A) : always R (lift r).
Proof. by intros s. Qed.

Lemma always_getattr {A} (a : option A) : always R (getattr a).
Proof. destruct a; by intros s. Qed.

Lemma always_modify (g : State → State) :
  (∀ s, R s (g s)) → always R (modify g).
Proof. intros H s. apply H. Qed.

Lemma always_bind {A A'} (m : M A) (k : A → M A') :
  always R m → (∀ a, always R (k a)) → always R (m ≫= k).
Proof.
  intros Hm Hk s. unfold mbind, M_bind.
  specialize (Hm s). destruct (m s) as [[a|e] s1]; simpl in *.
  - by etrans; [|apply Hk].
  - done.
Qed.

Lemma always_fmap {A A'} (g : A → A') (m : M A) :
  always R m → always R (g <$> m).
Proof. intros Hm. apply always_bind; [done | intros; apply always_ret]. Qed.

Lemma always_except_ClientError {A} (m : M A) (e : Exn) :
  always R m → always R (except_ClientError m e).
Proof.
  intros Hm s. unfold except_ClientError. specialize (Hm s).
  destruct (m s) as [[a|x] s1]; [done|].
  destruct x as [| | | | | | | | | | | | |b| | |]; try done. by destruct b.
Qed.

Lemma always_for_each {A} (g : A → M unit) (l : list A) :
  (∀ x, always R (g x)) → always R (for_each g l).
Proof.
  intros Hg. induction l as [|x l IH]; simpl.
  - apply always_ret.
  - by apply always_bind.
Qed.

Lemma always_for_collect {A A'} (g : A → M A') (l : list A) :
  (∀ x, always R (g x)) → always R (for_collect g l).
Proof.
  intros Hg. induction l as [|x l IH]; simpl.
  - apply always_ret.
  - apply always_bind; [done | intros y].
    apply always_bind; [done | intros ys]. apply always_ret.
Qed.

Lemma on_return_always {A} (m : M A) : always R m → on_return R m.
Proof. intros Hm s a s' E. specialize (Hm s). by rewrite E in Hm. Qed.

Lemma on_return_bind {A A'} (m : M A) (k : A → M A') :
  on_return R m → (∀ a, on_return R (k a)) → on_return R (m ≫= k).
Proof.
  intros Hm Hk s b s'. unfold mbind, M_bind.
  destruct (m s) as [[a|e] s1] eqn:E; [|done].
  intros E'. etrans; [by eapply Hm | by eapply Hk].
Qed.

Lemma on_return_for_each {A} (g : A → M unit) (l : list A) :
  (∀ x, on_return R (g x)) → on_return R (for_each g l).
Proof.
  intros Hg. induction l as [|x l IH]; simpl.
  - apply on_return_always, always_ret.
  - by apply on_return_bind.
Qed.

End Rules.

(** one step of a proof of [always R m]: the rule of the head construct of
    [m], a case analysis on what it branches on, or the unfolding of the
    function at its head *)
Ltac head_of t :=
  lazymatch t with
  | ?g _ => head_of g
  | _ => t
  end.

Ltac always_step :=
  lazymatch goal with
  | |- ∀ _, _ => intros
  | |- PreOrder _ => tc_solve
  | |- always _ (mret _) => apply always_ret
  | |- always _ (raise _) => apply always_raise
  | |- always _ get => apply always_get
  | |- always _ (lift _) => apply always_lift
  | |- always _ (getattr _) => apply always_getattr
  | |- always _ (mbind _ _) => apply always_bind
  | |- always _ (fmap _ _) => apply always_fmap
  | |- always _ (except_ClientError _ _) => apply always_except_ClientError
  | |- always _ (for_each _ _) => apply always_for_each
  | |- always _ (for_collect _ _) => apply always_for_collect
  | |- always _ (modify _) => apply always_modify; done
  | |- always _ (match ?x with _ => _ end) => destruct x
  | |- always _ (λ _, _) => by intros ?
  | |- always _ ?m => let h := head_of m in unfold h
  end.

Create HintDb always.

Ltac always_all :=
  repeat (first [ solve [auto 2 with always typeclass_instances]
                | always_step ]).

(** ** Running a computation step by step *)

Lemma bind_run {A B} (m : M A) (k : A → M B) s :
  (m ≫= k) s
  = match m s with
    | (Ok a, s1) => k a s1
    | (Raise e, s1) => (Raise e, s1)
    end.
Proof. reflexivity. Qed.

Lemma bind_ok {A B} (m : M A) (k : A → M B) s b s' :
  (m ≫= k) s = (Ok b, s') → ∃ a s1, m s = (Ok a, s1) ∧ k a s1 = (Ok b, s').
Proof. rewrite bind_run. destruct (m s) as [[a|e] s1]; [eauto | done]. Qed.

Lemma run_ok {A} (m : M A) s a : (m s).1 = Ok a → m s = (Ok a, (m s).2).
Proof. destruct (m s) as [r s']. simpl. by intros ->. Qed.

Lemma deref_run r s c : heap s !! r = Some c → deref r s = (Ok c, s).
Proof. intros H. unfold deref. rewrite bind_run. simpl. by rewrite H. Qed.

Lemma deref_ok r s c s' :
  deref r s = (Ok c, s') → s' = s ∧ heap s !! r = Some c.
Proof.
  unfold deref. rewrite bind_run. simpl.
  destruct (heap s !! r); [|done]. by intros [= <- <-].
Qed.

Lemma assign_ok r f s u s' :
  assign r f s = (Ok u, s') →
  ∃ c, heap s !! r = Some c ∧ s' = set_heap (<[r := f c]> (heap s)) s.
Proof.
  unfold assign. intros (c & s1 & Hc & E)%bind_ok.
  apply deref_ok in Hc as [-> Hc]. exists c. split; [done|].
  by injection E as <-.
Qed.

Lemma always_run {A} (R : relation State) (m : M A) s r s' :
  always R m → m s = (r, s') → R s s'.
Proof. intros H E. specialize (H s). by rewrite E in H. Qed.

(** ** What each operation leaves as it is *)

Section Pure.
Context (R : relation State) `{!PreOrder R}.

Lemma keep_tracks_always items : always R (keep_tracks items).
Proof.
  induction items as [|track r IH]; simpl; [always_all|].
  destruct track; always_all.
Qed.
Hint Resolve keep_tracks_always : always.

Lemma Logger_init_always mask config : always R (Logger_init mask config).
Proof. always_all. Qed.

Lemma S3io_init_always config : always R (S3io_init config).
Proof. always_all. Qed.

Lemma ingest_trackfile_always filepath : always R (ingest_trackfile filepath).
Proof. always_all. Qed.

Lemma ingest_cache_always directory : always R (ingest_cache directory).
Proof. always_all. Qed.

Lemma TrackConverter_init_always config filepath :
  always R (TrackConverter_init config filepath).
Proof. always_all. Qed.

Lemma deref_always r : always R (deref r).
Proof. always_all. Qed.

End Pure.

#[global] Hint Resolve keep_tracks_always Logger_init_always S3io_init_always
  ingest_trackfile_always ingest_cache_always TrackConverter_init_always
  deref_always : always.

Lemma record_call_deletes c :
  is_delete c = false → always (same deletes) (record_call c).
Proof.
  intros Hc s. unfold same, deletes, record_call, modify. simpl.
  rewrite filter_app, filter_cons_False, filter_nil, app_nil_r; [done|].
  by rewrite Hc.
Qed.

#[global] Hint Extern 1 (always (same deletes) (record_call _)) =>
  apply record_call_deletes; reflexivity : always.

Lemma Config_init_deletes filepath : always (same deletes) (Config_init filepath).
Proof. always_all. Qed.

Lemma TrackLister_init_deletes config orchestrator :
  always (same deletes) (TrackLister_init config orchestrator).
Proof. always_all. Qed.

Lemma download_all_tracks_deletes config client tracks :
  always (same deletes) (download_all_tracks config client tracks).
Proof. always_all. Qed.

Lemma upload_all_tracks_deletes client tracks :
  always (same deletes) (upload_all_tracks client tracks).
Proof. always_all. Qed.

Lemma upload_all_tracks_heap client tracks :
  always (same heap) (upload_all_tracks client tracks).
Proof. always_all. Qed.

Lemma rmtree_deletes directory : always (same deletes) (rmtree directory).
Proof. always_all. Qed.

Lemma slurp_cache_deletes slog config :
  always (same deletes) (slurp_cache slog config).
Proof. always_all. Qed.

(** ** The ingestion mode after [slurp_cache] *)

(** [slurp_cache] writes the mode into the object that [config] designates,
    and nothing after that write changes the object *)
Lemma slurp_cache_mode slog config s l s' :
  slurp_cache slog config s = (Ok l, s') →
  ∃ c, heap s' !! config = Some c ∧ ingestion_mode c = "cache".
Proof.
  unfold slurp_cache. intros (u & s1 & Ha & E)%bind_ok.
  apply assign_ok in Ha as (c & Hc & ->).
  assert (same heap (set_heap (<[config:=set_ingestion_mode "cache" c]> (heap s)) s) s')
    as Hh by (eapply always_run; [|exact E]; always_all).
  exists (set_ingestion_mode "cache" c). split; [|done].
  rewrite Hh. simpl. apply list_lookup_insert_eq.
  by eapply lookup_lt_Some.
Qed.

(** the clean-up that follows [slurp_cache] and the uploads is guarded by a
    test on the mode of the same object, so it never runs *)
Lemma clean_up_after_slurp slog config client tracks (k : M unit) :
  always (same deletes) k →
  always (same deletes)
    (cache_list ← slurp_cache slog config;
     upload_all_tracks client cache_list;;
     c ← deref config;
     (if clean_up c && negb (String.eqb (ingestion_mode c) "cache")
      then delete_source_tracks client tracks
      else mret tt);;
     k).
Proof.
  intros Hk s. rewrite bind_run.
  pose proof (slurp_cache_deletes slog config s) as H1.
  destruct (slurp_cache slog config s) as [[l|e] s1] eqn:E1; [|done].
  destruct (slurp_cache_mode _ _ _ _ _ E1) as (c & Hc & Hmode).
  rewrite bind_run.
  pose proof (upload_all_tracks_deletes client l s1) as H2.
  pose proof (upload_all_tracks_heap client l s1) as H3.
  destruct (upload_all_tracks client l s1) as [[[]|e] s2]; simpl in *.
  - rewrite bind_run, (deref_run _ _ c) by (by rewrite H3).
    rewrite Hmode, andb_false_r, bind_run. simpl.
    specialize (Hk s2). unfold same in *. congruence.
  - unfold same in *. congruence.
Qed.

(** no run issues a delete *)
Lemma Main_deletes : always (same deletes) Main.
Proof.
  unfold Main.
  repeat first
    [ apply clean_up_after_slurp
    | solve [auto 2 with always typeclass_instances]
    | apply Config_init_deletes | apply TrackLister_init_deletes
    | apply download_all_tracks_deletes | apply rmtree_deletes
    | always_step ].
Qed.

(** ** Configuration and logging *)

(** the object that [Config] builds has the attribute log_file only when
    log_to_file is set *)
Lemma Config_init_log_file filepath s config s1 c :
  Config_init filepath s = (Ok config, s1) →
  heap s1 !! config = Some c →
  log_to_file c = false → log_file c = None.
Proof.
  unfold Config_init. intros (s0 & ? & [= <- <-] & E)%bind_ok.
  destruct (ini_files (env s) !! filepath) as [parser|]; [|done].
  repeat (apply bind_ok in E as (? & ? & ? & E)).
  unfold alloc in E. injection E as <- <-. simpl.
  rewrite lookup_app_r, Nat.sub_diag by done. intros [= <-]. simpl.
  intros ->. match goal with H : mret None _ = _ |- _ => by injection H end.
Qed.

Lemma Config_init_trace filepath : always (same trace) (Config_init filepath).
Proof. always_all. Qed.

Lemma Config_init_files filepath : always (same files) (Config_init filepath).
Proof. always_all. Qed.

Lemma Logger_init_no_log_file mask config s c :
  heap s !! config = Some c → log_file c = None →
  Logger_init mask config s = (Raise AttributeError, s).
Proof.
  intros Hc Hf. unfold Logger_init.
  by rewrite bind_run, (deref_run _ _ c), Hf.
Qed.

(** * The claims *)

(** C10. Every Logger reads [config.log_file] when it is built, and
    [Config] defines that attribute only when log_to_file is true. So in a
    run whose configuration loads with log_to_file false, building any
    Logger raises AttributeError, and Main stops with that error at its
    first Logger, in the state that the construction of the Config left:
    no call to the store has been made and no file has been written. *)
Theorem logger_needs_log_file s config s1 c :
  Config_init (script_dir (env s) +:+ "/conf/sortie.ini") s = (Ok config, s1) →
  heap s1 !! config = Some c →
  log_to_file c = false →
  (∀ mask, Logger_init mask config s1 = (Raise AttributeError, s1))
  ∧ Main s = (Raise AttributeError, s1)
  ∧ trace s1 = trace s
  ∧ files s1 = files s.
Proof.
  intros E Hc Hl.
  pose proof (Config_init_log_file _ _ _ _ _ E Hc Hl) as Hf.
  split_and!.
  - intros mask. by eapply Logger_init_no_log_file.
  - unfold Main. rewrite bind_run. simpl. rewrite bind_run, E.
    by rewrite bind_run, (Logger_init_no_log_file _ _ _ c).
  - by eapply (always_run (same trace)); [apply Config_init_trace|].
  - by eapply (always_run (same files)); [apply Config_init_files|].
Qed.

Lemma logger_needs_log_file_witness :
  let w := sample_world
             (sample_ini "false" "track_list" standard_mask "true" "false")
             sample_bucket ∅ in
  (Main w).1 = Raise AttributeError ∧ trace (Main w).2 = [].
Proof.
  intros w.
  pose (c := {| path := "/opt/sortie/conf/sortie.ini";
                environment := "default"; bucket := "tunes";
                log_to_file := false; max_logging_level := 4;
                log_file := None; ingestion_mode := "track_list";
                track_list := Some "/srv/tracks.json";
                cache_dir := "/tmp/cache"; sort_mask := standard_mask;
                clean_up := true; persistent_cache := false |}).
  remember (Config_init "/opt/sortie/conf/sortie.ini" w).2 as s1 eqn:Hs1.
  destruct (logger_needs_log_file w 0%nat s1 c) as (_ & E & Ht & _).
  - rewrite Hs1. apply run_ok. vm_compute. reflexivity.
  - rewrite Hs1. vm_compute. reflexivity.
  - reflexivity.
  - rewrite E. split; [reflexivity | exact Ht].
Defined.

(** C2. A run in cache-recovery mode issues no delete against the store,
    whatever clean_up is: from a start without calls, no call of the whole
    run, whether the run completes or aborts, is a delete. *)
Theorem cache_recovery_never_deletes s ini :
  initial s →
  ini_files (env s) !! (script_dir (env s) +:+ "/conf/sortie.ini") = Some ini →
  ini !! "ingestion" ≫= (.!! "mode") = Some "cache" →
  ∀ b k, Delete b k ∉ trace (Main s).2.
Proof.
  intros [_ Ht] _ _ b k Hin.
  pose proof (Main_deletes s) as Hd. unfold same, deletes in Hd.
  rewrite Ht, filter_nil in Hd.
  assert (Delete b k ∈ filter (λ c, is_delete c = true) (trace (Main s).2)) as Hf
    by (by apply list_elem_of_filter).
  rewrite Hd in Hf. by apply elem_of_nil in Hf.
Qed.

Lemma cache_recovery_never_deletes_witness :
  let w := sample_world
             (sample_ini "true" "cache" standard_mask "true" "true")
             sample_bucket
             {[ "/tmp/cache/00c52942-9caa-5ad8-a2d1-592afeef78a2.mp3"
                := tagged "A" "B" "C" ]} in
  (Main w).1 = Ok tt ∧ Delete "tunes" "music/01.mp3" ∉ trace (Main w).2.
Proof.
  intros w. split; [vm_compute; reflexivity|].
  apply (cache_recovery_never_deletes w
           (sample_ini "true" "cache" standard_mask "true" "true")).
  - split; reflexivity.
  - exact (lookup_singleton_eq _ _).
  - vm_compute. reflexivity.
Defined.

(** C1, at an input where the code departs from it. With clean_up true, in
    manifest mode and in live-scan mode, the run completes, the one source
    identifier enumerated is music/01.mp3, and no delete is issued for it:
    the calls of the run are the download and the upload (after the listing
    in live-scan mode), and the source object is still in the bucket. *)
Theorem clean_up_is_skipped :
  let manifest_run :=
    Main (sample_world (sample_ini "true" "track_list" standard_mask "true" "true")
            sample_bucket ∅) in
  let live_scan_run :=
    Main (sample_world (sample_ini "true" "dynamic" standard_mask "true" "true")
            sample_bucket ∅) in
  let staged_file := "/tmp/cache/00c52942-9caa-5ad8-a2d1-592afeef78a2.mp3" in
  manifest_run.1 = Ok tt
  ∧ clean_up <$> heap manifest_run.2 !! 0%nat = Some true
  ∧ trace manifest_run.2
    = [Download "tunes" "music/01.mp3" staged_file;
       Upload staged_file "tunes" "A/B/C.mp3"]
  ∧ fst <$> objects manifest_run.2
    = ["music/01.mp3"; "music/notes.txt"; "A/B/C.mp3"]
  ∧ live_scan_run.1 = Ok tt
  ∧ trace live_scan_run.2
    = [ListObjects "tunes";
       Download "tunes" "music/01.mp3" staged_file;
       Upload staged_file "tunes" "A/B/C.mp3"].
Proof. vm_compute. done. Qed.

(** C3, as it is stated, fails on the template of the specification: for a
    file without tags the three variables are written out as None, not as
    the empty string. *)
Lemma empty_tags_not_empty_strings :
  Jinja.Template standard_mask
  = Some [Jinja.Name "artist"; Jinja.Data "/"; Jinja.Name "album";
          Jinja.Data "/"; Jinja.Name "title"; Jinja.Data ".mp3"]
  ∧ substituted (λ _, "")
      [Jinja.Name "artist"; Jinja.Data "/"; Jinja.Name "album";
       Jinja.Data "/"; Jinja.Name "title"; Jinja.Data ".mp3"] = "//.mp3"
  ∧ ∀ e, load_target_template e no_tags standard_mask
         = Ok "None/None/None.mp3"
         ∧ load_target_template e no_tags standard_mask ≠ Ok "//.mp3".
Proof.
  split_and!; [vm_compute; reflexivity..|].
  intros e. split; [reflexivity | discriminate].
Qed.

(** C3, amended. For a file whose artist, album and title tags are all
    absent, rendering a template without a line break that is made of
    literal text and of the variables artist, album and title, and of
    nothing else, returns, without raising, the template with each
    variable substituted by the text None. *)
Theorem empty_tags_render_as_None e t ref tm :
  artist t = None → album t = None → title t = None →
  Jinja.Template ref = Some tm →
  Forall (λ p, ∀ x, p = Jinja.Name x → x ∈ ["artist"; "album"; "title"]) tm →
  load_target_template e t ref = Ok (substituted (λ _, "None") tm).
Proof.
  intros Ha Hb Ht Htm Hnames. unfold load_target_template.
  rewrite Htm, Ha, Hb, Ht. f_equal. clear Htm.
  unfold Jinja.render, substituted.
  induction Hnames as [|p tm Hp _ IH]; [done|]. cbn [foldr]. rewrite IH.
  f_equal. destruct p as [text|x]; [done|].
  specialize (Hp x eq_refl). rewrite !elem_of_cons in Hp.
  destruct Hp as [->|[->|[->|Hp]]]; [done..|]. by apply elem_of_nil in Hp.
Qed.

Lemma empty_tags_render_as_None_witness :
  load_target_template (sample_env ∅) no_tags standard_mask
  = Ok "None/None/None.mp3".
Proof.
  apply (empty_tags_render_as_None (sample_env ∅) no_tags standard_mask
           [Jinja.Name "artist"; Jinja.Data "/"; Jinja.Name "album";
            Jinja.Data "/"; Jinja.Name "title"; Jinja.Data ".mp3"]);
    try reflexivity.
  repeat first
    [ apply Forall_nil_2
    | apply Forall_cons_2;
      [intros x Hx; try discriminate Hx; injection Hx as <-;
       rewrite !elem_of_cons; tauto|] ].
Defined.



Lemma keep_tracks_strings entries s :
  keep_tracks (JString <$> entries) s
  = (Ok (filter (λ track, PyStr.endswith track ".mp3" = true) entries), s).
Proof.
  induction entries as [|track entries IH]; [done|].
  cbn [fmap list_fmap keep_tracks]. rewrite bind_run.
  change (list_fmap _ _ JString entries) with (JString <$> entries).
  rewrite IH. unfold mret, M_ret. f_equal. rewrite filter_cons.
  destruct (PyStr.endswith track ".mp3"); by case_decide.
Qed.

Lemma subscript_input_state data s : (subscript_input data s).2 = s.
Proof.
  unfold subscript_input. destruct data; try done.
  by destruct (last _).
Qed.

(** C6. In manifest mode the tracks are the entries of the array under
    the key input of the manifest that end in .mp3, in the order of the
    manifest. *)
Theorem manifest_keeps_mp3_entries s filepath data entries :
  json_files (env s) !! filepath = Some (Some data) →
  (subscript_input data s).1 = Ok (JArray (JString <$> entries)) →
  ingest_trackfile filepath s
  = (Ok (filter (λ track, PyStr.endswith track ".mp3" = true) entries), s).
Proof.
  intros Hf Hin. unfold ingest_trackfile. rewrite bind_run. simpl.
  rewrite Hf, bind_run.
  pose proof (subscript_input_state data s) as Hs.
  destruct (subscript_input data s) as [r s1]. simpl in *. subst r s1.
  rewrite bind_run. simpl. apply keep_tracks_strings.
Qed.

Lemma manifest_keeps_mp3_entries_witness :
  let w := sample_world
             (sample_ini "true" "track_list" standard_mask "true" "true")
             sample_bucket ∅ in
  ingest_trackfile "/srv/tracks.json" w = (Ok ["music/01.mp3"], w).
Proof.
  intros w.
  apply (manifest_keeps_mp3_entries w "/srv/tracks.json" sample_manifest
           ["music/01.mp3"; "music/notes.txt"]).
  - exact (lookup_singleton_eq _ _).
  - reflexivity.
Defined.

(** C8, at an input where the code departs from it. When the store client
    refuses an upload, be it with a ClientError or with the error in which
    boto3 wraps a failed upload, [upload_file] raises that very error and
    not InvalidPermissions; on a ClientError [download_file] and
    [list_bucket_contents] raise InvalidPermissions. *)
Theorem upload_error_is_not_translated :
  let w := configured
             (sample_world
                (sample_ini "true" "track_list" standard_mask "true" "true")
                sample_bucket
                {[ "/tmp/cache/a.mp3" := tagged "A" "B" "C" ]}) in
  let refused e := with_faults (Some e) (λ _, Some e) (λ _, Some e) w in
  (upload_file sample_client "/tmp/cache/a.mp3" "A/B/C.mp3"
     (refused ClientError)).1 = Raise (Boto ClientError)
  ∧ (upload_file sample_client "/tmp/cache/a.mp3" "A/B/C.mp3"
       (refused S3UploadFailedError)).1 = Raise (Boto S3UploadFailedError)
  ∧ (download_file sample_client "music/01.mp3" "/tmp/cache/a.mp3"
       (refused ClientError)).1 = Raise InvalidPermissions
  ∧ (list_bucket_contents sample_client "tunes" (refused ClientError)).1
    = Raise InvalidPermissions.
Proof. vm_compute. done. Qed.






(** ** Staging *)

Lemma download_file_effect client remote_filename local_filename s :
  heap (download_file client remote_filename local_filename s).2 = heap s
  ∧ ∃ t, trace (download_file client remote_filename local_filename s).2
         = (trace s ++ t)%list
       ∧ (t = [] ∨ ∃ b, t = [Download b remote_filename local_filename]).
Proof.
  unfold download_file. rewrite bind_run. unfold deref. rewrite bind_run. simpl.
  destruct (heap s !! s3_config client) as [c|]; simpl.
  - unfold except_ClientError, client_download_file.
    rewrite bind_run. simpl. rewrite bind_run. simpl.
    assert (∃ t, (trace s ++ [Download (bucket c) remote_filename local_filename]
                  = trace s ++ t)%list
              ∧ (t = [] ∨ ∃ b, t = [Download b remote_filename local_filename]))
      by (eexists; split; [done | right; by eexists]).
    destruct (String.eqb remote_filename ""); [done|].
    destruct (download_fault _ _) as [[]|]; simpl; try done.
    destruct (list_to_map _ !! _); [|done].
    rewrite bind_run. unfold creatable.
    destruct (parent local_filename) as [[|]|]; repeat case_bool_decide; done.
  - split; [done|]. exists []. split; [by rewrite app_nil_r | by left].
Qed.

(** every call that [download_all_tracks] makes is the download of a track
    into the file that [local_filename] gives for it *)
Lemma download_all_tracks_trace config client tracks s c :
  heap s !! config = Some c →
  ∃ t, trace (download_all_tracks config client tracks s).2 = (trace s ++ t)%list
     ∧ Forall (λ call, ∃ b track,
                 call = Download b track (local_filename (cache_dir c) track)) t.
Proof.
  unfold download_all_tracks. revert s.
  induction tracks as [|track tracks IH]; intros s Hc.
  - exists []. simpl. by rewrite app_nil_r.
  - cbn [for_each]. rewrite bind_run, bind_run, (deref_run _ _ c) by done.
    destruct (download_file_effect client track
                (local_filename (cache_dir c) track) s)
      as (Hh & t1 & Ht1 & Hcall).
    assert (Forall (λ call, ∃ b track,
              call = Download b track (local_filename (cache_dir c) track)) t1)
      as Hall1.
    { destruct Hcall as [->|[b ->]]; [done|]. repeat constructor. eauto. }
    destruct (download_file client track _ s) as [[[]|e] s1]; simpl in *.
    + destruct (IH s1) as (t2 & Ht2 & Hall2); [by rewrite Hh|].
      exists (t1 ++ t2)%list. split; [|by apply Forall_app].
      by rewrite Ht2, Ht1, <- app_assoc.
    + by exists t1.
Qed.

(** *** The name of a staged file and the UUID of its identifier *)

Lemma hexdigit_inj d d' :
  0 ≤ d < 16 → 0 ≤ d' < 16 → Uuid.hexdigit d = Uuid.hexdigit d' → d = d'.
Proof.
  intros Hd Hd'.
  assert (d ∈ seqZ 0 16) as Hin by (apply elem_of_seqZ; lia).
  assert (d' ∈ seqZ 0 16) as Hin' by (apply elem_of_seqZ; lia).
  revert Hin Hin'. cbv [seqZ Z.to_nat Pos.to_nat Pos.iter_op Nat.add seq
                        fmap list_fmap Z.of_nat Z.add Pos.of_succ_nat
                        Pos.succ].
  rewrite !elem_of_cons, !elem_of_nil.
  intros H H'. intros E.
  repeat (destruct H as [->|H]; [|]);
    repeat (destruct H' as [->|H']; [|]);
    try done; try (vm_compute in E; discriminate E).
Qed.

(** the digits of a number tell its value modulo 16^n *)
Lemma hex_inj n x y :
  Uuid.hex n x = Uuid.hex n y →
  x mod 2 ^ (4 * Z.of_nat n) = y mod 2 ^ (4 * Z.of_nat n).
Proof.
  induction n as [|n IH]; intros E.
  - by rewrite !Z.mod_1_r.
  - cbn [Uuid.hex] in E. injection E as Hd Hrest.
    apply hexdigit_inj in Hd.
    + specialize (IH Hrest).
      change 0xf with (Z.ones 4) in Hd.
      rewrite !Z.land_ones, !Z.shiftr_div_pow2 in Hd by lia.
      replace (4 * Z.of_nat (S n)) with (4 * Z.of_nat n + 4) by lia.
      rewrite Z.pow_add_r by lia.
      rewrite !(Z.rem_mul_r _ (2 ^ (4 * Z.of_nat n)) (2 ^ 4)) by lia.
      by rewrite IH, Hd.
    + change 0xf with (Z.ones 4). rewrite Z.land_ones by lia.
      apply Z.mod_pos_bound. lia.
    + change 0xf with (Z.ones 4). rewrite Z.land_ones by lia.
      apply Z.mod_pos_bound. lia.
Qed.

Lemma hex_length n x : String.length (Uuid.hex n x) = n.
Proof. induction n as [|n IH]; [done|]. simpl. by rewrite IH. Qed.

(** a number whose bits from [n] on are all 0 is below 2^n *)
Lemma low_bits n x :
  0 ≤ n → (∀ k, n ≤ k → Z.testbit x k = false) → x mod 2 ^ n = x.
Proof.
  intros Hn Hx. apply Z.bits_inj'. intros k Hk.
  destruct (Z.lt_ge_cases k n).
  - by rewrite Z.mod_pow2_bits_low.
  - by rewrite Z.mod_pow2_bits_high, Hx.
Qed.

Lemma testbit_small a k :
  0 ≤ a → Z.log2 a < k → Z.testbit a k = false.
Proof. intros. by apply Z.bits_above_log2. Qed.

Lemma be_bytes_bytes n x :
  Forall (λ b, ∀ k, 8 ≤ k → Z.testbit b k = false) (Sha1.be_bytes n x).
Proof.
  induction n as [|n IH]; [done|]. cbn [Sha1.be_bytes]. constructor; [|done].
  intros k Hk. rewrite Z.land_spec, (testbit_small 0xff k), andb_false_r;
    [done | done | by (change (Z.log2 0xff) with 7; lia)].
Qed.

Lemma be_int_bits bs acc n :
  0 ≤ n →
  (∀ k, n ≤ k → Z.testbit acc k = false) →
  Forall (λ b, ∀ k, 8 ≤ k → Z.testbit b k = false) bs →
  ∀ k, n + 8 * Z.of_nat (length bs) ≤ k →
    Z.testbit (foldl (λ acc b, Z.lor (Z.shiftl acc 8) b) acc bs) k = false.
Proof.
  intros Hn Hacc Hbs. revert acc n Hn Hacc.
  induction Hbs as [|b bs Hb _ IH]; intros acc n Hn Hacc k Hk; simpl in *.
  - apply Hacc. lia.
  - apply (IH _ (n + 8)); [lia | | lia].
    intros j Hj. rewrite Z.lor_spec, Z.shiftl_spec by lia.
    rewrite Hacc, Hb by lia. done.
Qed.

Lemma uuid5_range namespace name :
  Uuid.uuid5 namespace name mod 2 ^ 128 = Uuid.uuid5 namespace name.
Proof.
  apply low_bits; [lia|]. intros k Hk. unfold Uuid.uuid5, Uuid.UUID.
  assert (Z.testbit
            (Sha1.be_int (take 16 (Sha1.digest (namespace ++ PyStr.encode name))))
            k = false) as Hi.
  { unfold Sha1.be_int. apply (be_int_bits _ 0 0); [lia | | |].
    - intros j _. apply Z.testbit_0_l.
    - apply Forall_take. unfold Sha1.digest.
      repeat (apply Forall_app; split); apply be_bytes_bytes.
    - rewrite length_take. lia. }
  rewrite Z.lor_spec, Z.land_spec, Z.lor_spec, Z.land_spec, Hi.
  rewrite !Z.shiftl_spec by lia.
  rewrite (testbit_small 5), (testbit_small 0x8000); [done | done | | done |].
  - change (Z.log2 0x8000) with 15. lia.
  - change (Z.log2 5) with 2. lia.
Qed.

(** what follows one and the same text, if the whole is the same *)
Lemma append_inv_head a x y : a +:+ x = a +:+ y → x = y.
Proof.
  induction a as [|c a IH]; [done|]. intros E.
  change (String c (a +:+ x) = String c (a +:+ y)) in E.
  injection E as E. by apply IH.
Qed.

(** two names of staged files are the same only if the hexadecimal digits
    of the two UUIDs are *)
Lemma stage_name_digits u u' :
  Uuid.str u +:+ ".mp3" = Uuid.str u' +:+ ".mp3" →
  Uuid.hex 32 u = Uuid.hex 32 u'.
Proof.
  unfold Uuid.str.
  pose proof (hex_length 32 u) as Hl. pose proof (hex_length 32 u') as Hl'.
  generalize dependent (Uuid.hex 32 u). intros h Hl.
  generalize dependent (Uuid.hex 32 u'). intros h' Hl'.
  do 32 (destruct h as [|? h]; [discriminate Hl|];
         simpl in Hl; apply Nat.succ_inj in Hl).
  destruct h; [|discriminate Hl].
  do 32 (destruct h' as [|? h']; [discriminate Hl'|];
         simpl in Hl'; apply Nat.succ_inj in Hl').
  destruct h'; [|discriminate Hl'].
  vm_compute. intros E. injection E as -> -> -> -> -> -> -> -> -> -> -> ->
    -> -> -> -> -> -> -> -> -> -> -> -> -> -> -> -> -> -> -> ->. reflexivity.
Qed.

Lemma stage_name_uuid track track' :
  stage_name track = stage_name track'
  ↔ Uuid.uuid5 Uuid.NAMESPACE_OID track = Uuid.uuid5 Uuid.NAMESPACE_OID track'.
Proof.
  unfold stage_name. split; [|by intros ->]. intros E.
  apply stage_name_digits, hex_inj in E.
  change (2 ^ (4 * Z.of_nat 32)) with (2 ^ 128) in E.
  by rewrite !uuid5_range in E.
Qed.

(** two UUIDs of version 5 are the same exactly when the digests agree on
    the bits that the UUID keeps *)
Lemma uuid5_retained namespace name name' :
  Uuid.uuid5 namespace name = Uuid.uuid5 namespace name'
  ↔ retained namespace name = retained namespace name'.
Proof.
  unfold Uuid.uuid5, Uuid.UUID, retained.
  generalize (Sha1.be_int
                (take 16 (Sha1.digest (namespace ++ PyStr.encode name)))).
  generalize (Sha1.be_int
                (take 16 (Sha1.digest (namespace ++ PyStr.encode name')))).
  intros j i.
  assert (∀ n, 0 ≤ n →
    (Z.testbit
       (Z.lor (Z.land (Z.lor (Z.land i (Z.lnot (Z.shiftl 0xc000 48)))
                             (Z.shiftl 0x8000 48))
                      (Z.lnot (Z.shiftl 0xf000 64)))
              (Z.shiftl 5 76)) n
     = Z.testbit
         (Z.lor (Z.land (Z.lor (Z.land j (Z.lnot (Z.shiftl 0xc000 48)))
                               (Z.shiftl 0x8000 48))
                        (Z.lnot (Z.shiftl 0xf000 64)))
                (Z.shiftl 5 76)) n)
    ↔ Z.testbit
        (Z.land i (Z.lnot (Z.lor (Z.shiftl 0xc000 48) (Z.shiftl 0xf000 64)))) n
      = Z.testbit
          (Z.land j (Z.lnot (Z.lor (Z.shiftl 0xc000 48) (Z.shiftl 0xf000 64))))
          n) as Hbit.
  { intros n Hn.
    assert (Z.testbit (Z.shiftl 0x8000 48) n = true →
            Z.testbit (Z.shiftl 0xc000 48) n = true) as H1.
    { intros H.
      assert (Z.land (Z.shiftl 0x8000 48) (Z.shiftl 0xc000 48)
              = Z.shiftl 0x8000 48) as E by reflexivity.
      apply (f_equal (λ x, Z.testbit x n)) in E.
      by rewrite Z.land_spec, H in E. }
    assert (Z.testbit (Z.shiftl 5 76) n = true →
            Z.testbit (Z.shiftl 0xf000 64) n = true) as H2.
    { intros H.
      assert (Z.land (Z.shiftl 5 76) (Z.shiftl 0xf000 64) = Z.shiftl 5 76)
        as E by reflexivity.
      apply (f_equal (λ x, Z.testbit x n)) in E.
      by rewrite Z.land_spec, H in E. }
    rewrite !Z.lor_spec, !Z.land_spec, !Z.lor_spec, !Z.land_spec,
      !Z.lnot_spec, !Z.lor_spec by done.
    destruct (Z.testbit (Z.shiftl 0x8000 48) n),
      (Z.testbit (Z.shiftl 0xc000 48) n),
      (Z.testbit (Z.shiftl 5 76) n),
      (Z.testbit (Z.shiftl 0xf000 64) n);
      try (by discriminate H1); try (by discriminate H2);
      destruct (Z.testbit i n), (Z.testbit j n); simpl; done. }
  split; intros E; apply Z.bits_inj'; intros n Hn; apply Hbit; try done;
    by rewrite E.
Qed.

(** C4. The file in which a source identifier is staged is named by a
    function of the identifier alone, a hash of it with a namespace: the
    UUID of version 5 of the identifier in the namespace NAMESPACE_OID,
    followed by .mp3 and put in the cache directory. So whenever the
    download step stages identifiers, in one run or in two, with one and
    the same cache directory, the same identifier gets the same local file
    name, and two identifiers get the same local file name exactly when
    their UUIDs are the same, that is exactly when the SHA-1 digests of the
    namespace followed by the identifier agree on the 122 bits that the
    UUID keeps. *)
Theorem staging_name_is_deterministic
    config1 client1 tracks1 s1 c1 config2 client2 tracks2 s2 c2
    track1 b1 f1 track2 b2 f2 :
  heap s1 !! config1 = Some c1 → trace s1 = [] →
  heap s2 !! config2 = Some c2 → trace s2 = [] →
  Download b1 track1 f1
    ∈ trace (download_all_tracks config1 client1 tracks1 s1).2 →
  Download b2 track2 f2
    ∈ trace (download_all_tracks config2 client2 tracks2 s2).2 →
  f1 = cache_dir c1 +:+ "/"
       +:+ Uuid.str (Uuid.uuid5 Uuid.NAMESPACE_OID track1) +:+ ".mp3"
  ∧ f2 = cache_dir c2 +:+ "/"
         +:+ Uuid.str (Uuid.uuid5 Uuid.NAMESPACE_OID track2) +:+ ".mp3"
  ∧ (cache_dir c1 = cache_dir c2 →
       (track1 = track2 → f1 = f2)
       ∧ (f1 = f2
          ↔ Uuid.uuid5 Uuid.NAMESPACE_OID track1
            = Uuid.uuid5 Uuid.NAMESPACE_OID track2)
       ∧ (f1 = f2
          ↔ retained Uuid.NAMESPACE_OID track1
            = retained Uuid.NAMESPACE_OID track2)).
Proof.
  intros Hc1 Ht1 Hc2 Ht2 Hin1 Hin2.
  destruct (download_all_tracks_trace config1 client1 tracks1 s1 c1 Hc1)
    as (t1 & E1 & Hall1).
  destruct (download_all_tracks_trace config2 client2 tracks2 s2 c2 Hc2)
    as (t2 & E2 & Hall2).
  rewrite E1, Ht1 in Hin1. rewrite E2, Ht2 in Hin2. simpl in Hin1, Hin2.
  rewrite Forall_forall in Hall1, Hall2.
  destruct (Hall1 _ Hin1) as (? & ? & [= <- <- ->]).
  destruct (Hall2 _ Hin2) as (? & ? & [= <- <- ->]).
  split_and!; [done..|]. unfold local_filename. intros ->.
  assert (cache_dir c2 +:+ "/" +:+ stage_name track1
          = cache_dir c2 +:+ "/" +:+ stage_name track2
          ↔ Uuid.uuid5 Uuid.NAMESPACE_OID track1
            = Uuid.uuid5 Uuid.NAMESPACE_OID track2) as Hname.
  { rewrite <- stage_name_uuid. split.
    - intros E. by apply append_inv_head, append_inv_head in E.
    - by intros ->. }
  split_and!; [by intros -> | done | by rewrite <- uuid5_retained].
Qed.

Lemma staging_name_is_deterministic_witness :
  let first := "/tmp/cache/00c52942-9caa-5ad8-a2d1-592afeef78a2.mp3" in
  let second := "/tmp/cache/2d955fae-778d-55ea-ad56-01f1b5eaeb47.mp3" in
  first = "/tmp/cache" +:+ "/"
          +:+ Uuid.str (Uuid.uuid5 Uuid.NAMESPACE_OID "music/01.mp3")
          +:+ ".mp3"
  ∧ second = "/tmp/cache" +:+ "/"
             +:+ Uuid.str (Uuid.uuid5 Uuid.NAMESPACE_OID "music/02.mp3")
             +:+ ".mp3"
  ∧ first ≠ second
  ∧ (first = second
     ↔ retained Uuid.NAMESPACE_OID "music/01.mp3"
       = retained Uuid.NAMESPACE_OID "music/02.mp3").
Proof.
  intros first second.
  pose (w1 := configured
                (sample_world
                   (sample_ini "true" "track_list" standard_mask "true" "true")
                   sample_bucket ∅)).
  pose (w2 := configured
                (sample_world
                   (sample_ini "true" "dynamic" "{{title}}" "false" "false")
                   sample_bucket ∅)).
  pose (c1 := {| path := "/opt/sortie/conf/sortie.ini";
                 environment := "default"; bucket := "tunes";
                 log_to_file := true; max_logging_level := 4;
                 log_file := Some "/var/log/sortie.log";
                 ingestion_mode := "track_list";
                 track_list := Some "/srv/tracks.json";
                 cache_dir := "/tmp/cache"; sort_mask := standard_mask;
                 clean_up := true; persistent_cache := true |}).
  pose (c2 := {| path := "/opt/sortie/conf/sortie.ini";
                 environment := "default"; bucket := "tunes";
                 log_to_file := true; max_logging_level := 4;
                 log_file := Some "/var/log/sortie.log";
                 ingestion_mode := "dynamic"; track_list := None;
                 cache_dir := "/tmp/cache"; sort_mask := "{{title}}";
                 clean_up := false; persistent_cache := false |}).
  destruct (staging_name_is_deterministic
              0%nat sample_client
              ["music/01.mp3"; "music/notes.txt"; "music/01.mp3"] w1 c1
              0%nat sample_client ["music/02.mp3"] w2 c2
              "music/01.mp3" "tunes" first "music/02.mp3" "tunes" second)
    as (H1 & H2 & H).
  - vm_compute. reflexivity.
  - vm_compute. reflexivity.
  - vm_compute. reflexivity.
  - vm_compute. reflexivity.
  - vm_compute. constructor.
  - vm_compute. constructor.
  - destruct (H eq_refl) as (_ & Huuid & Hbits).
    split_and!; [exact H1 | exact H2 | | exact Hbits].
    intros E. apply Huuid in E. vm_compute in E. discriminate E.
Defined.

(** ** The cache directory during a run *)

Lemma staged_of s s' :
  dirs s ⊆ dirs s' → files s' = files s →
  (∀ b k f, Download b k f ∈ trace s' → Download b k f ∈ trace s) →
  staged s s'.
Proof.
  intros Hd Hf Ht. split_and!; [done | by rewrite Hf | intros; left; eauto].
Qed.

Lemma record_call_staged c :
  (∀ b k f, c ≠ Download b k f) → always staged (record_call c).
Proof.
  intros Hc s. apply staged_of; simpl; [done..|].
  intros b k f Hin. apply elem_of_app in Hin as [?|Hin]; [done|].
  apply list_elem_of_singleton in Hin. exfalso. by apply (Hc b k f).
Qed.

Lemma alloc_staged c : always staged (alloc c).
Proof. intros s. by apply staged_of. Qed.

Lemma mkdir_staged p : always staged (mkdir p).
Proof. intros s. apply staged_of; simpl; [apply union_subseteq_r | done..]. Qed.

#[global] Hint Resolve alloc_staged mkdir_staged : always.
#[global] Hint Extern 1 (always staged (record_call _)) =>
  apply record_call_staged; done : always.
#[global] Hint Extern 1 (always staged (modify _)) =>
  apply always_modify; intros ?; apply staged_of; done : always.

Lemma same_heap_settings r s s' : heap s' = heap s → same_settings r s s'.
Proof. intros Hh c Hc. exists c. by rewrite Hh. Qed.

Lemma alloc_settings r c : always (same_settings r) (alloc c).
Proof.
  intros s c' Hc'. exists c'. split; [|done]. simpl.
  by apply lookup_app_l_Some.
Qed.

Lemma assign_settings r r' v :
  always (same_settings r) (assign r' (set_ingestion_mode v)).
Proof.
  intros s c Hc. unfold assign. rewrite bind_run. unfold deref.
  rewrite bind_run. simpl.
  destruct (heap s !! r') as [c'|] eqn:Hc'; simpl; [|by exists c].
  destruct (decide (r = r')) as [->|Hne].
  - exists (set_ingestion_mode v c'). split.
    + apply list_lookup_insert_eq. by eapply lookup_lt_Some.
    + by simplify_eq.
  - exists c. by rewrite list_lookup_insert_ne.
Qed.

#[global] Hint Resolve alloc_settings assign_settings : always.
#[global] Hint Extern 1 (always (same_settings _) (modify _)) =>
  apply always_modify; intros ?; apply same_heap_settings; reflexivity : always.

Lemma download_file_staged client remote_filename local_filename :
  on_return staged (download_file client remote_filename local_filename).
Proof.
  intros s u s'. unfold download_file.
  intros (c & ? & [-> Hc]%deref_ok & E)%bind_ok.
  unfold except_ClientError, client_download_file in E.
  rewrite bind_run in E. simpl in E. rewrite bind_run in E. simpl in E.
  destruct (String.eqb remote_filename ""); [done|].
  destruct (download_fault _ _) as [[]|]; simpl in E; try done.
  destruct (list_to_map _ !! _) as [content|]; simpl in E; [|done].
  rewrite bind_run in E. unfold lift in E.
  destruct (creatable local_filename _) as [[]|e];
    [|by destruct e as [| | | | | | | | | | | | |[]| | |]].
  injection E as E. subst s'. split_and!; simpl.
  - done.
  - intros p Hp. apply lookup_insert_is_Some'. by right.
  - intros b k f Hin. apply elem_of_app in Hin as [?|Hin]; [by left|].
    apply list_elem_of_singleton in Hin as [= -> -> ->].
    right. apply lookup_insert_is_Some'. by left.
Qed.

Lemma download_all_tracks_staged config client tracks :
  on_return staged (download_all_tracks config client tracks).
Proof.
  apply on_return_for_each; try tc_solve. intros track.
  apply on_return_bind; try tc_solve.
  - apply on_return_always; try tc_solve. apply deref_always. tc_solve.
  - intros c. apply download_file_staged.
Qed.




(** *** What a run leaves of the cache when it stops on an error *)

#[global] Instance untouched_preorder : PreOrder untouched.
Proof.
  split.
  - by intros s.
  - intros s1 s2 s3 [Hd1 Hf1] [Hd2 Hf2]. split; [by etrans | auto].
Qed.

Lemma alloc_untouched c : always untouched (alloc c).
Proof. by intros s. Qed.

#[global] Hint Resolve alloc_untouched : always.
#[global] Hint Extern 1 (always untouched (modify _)) =>
  apply always_modify; intros ?; split; simpl;
  [ first [done | apply union_subseteq_r]
  | intros ? ?; first [done | apply lookup_insert_is_Some'; by right] ]
  : always.

#[global] Instance kept_preorder config : PreOrder (kept config).
Proof.
  split.
  - intros s. by split_and!.
  - intros s1 s2 s3 (H1 & H2 & H3) (H1' & H2' & H3').
    split_and!; [by etrans | by etrans | congruence].
Qed.








(** * Further properties of the code *)

(** ** Logging *)

(** X1. A call of a logger emits its message if the channel is FATAL or if
    the value of the channel is at most the verbosity, and not otherwise.
    An emitted message is printed once, on stderr for FATAL and WARN and on
    stdout for INFO and DEBUG, and the same line is appended once to the
    log file when log_to_file is set. *)
Theorem log_emits_once self now err_class msg :
  let line := "[" +:+ now +:+ "]" +:+ tab +:+ "[" +:+ ERR_name err_class +:+ "]"
              +:+ tab +:+ "[" +:+ mask_name self +:+ "] " +:+ msg in
  let stream := match err_class with
                | FATAL | WARN => stderr
                | INFO | DEBUG => stdout
                end in
  log self now err_class msg
  = if ERR_eqb err_class FATAL || (ERR_value err_class <=? verbosity self)
    then Print stream line
         :: (if logger_log_to_file self
             then [Append (logger_log_file self) (line +:+ newline)] else [])
    else [].
Proof.
  destruct err_class; unfold log, write_logfile; simpl;
    try match goal with
        | |- context [?v <=? verbosity self] => destruct (v <=? verbosity self)
        end; simpl; by rewrite ?app_nil_r.
Qed.

(** ** Strings *)

Lemma append_cons c a b : String c a +:+ b = String c (a +:+ b).
Proof. reflexivity. Qed.

Lemma append_empty_r s : s +:+ "" = s.
Proof. induction s as [|c s IH]; [done|]. by rewrite append_cons, IH. Qed.

Lemma prefix_append a b : String.prefix a (a +:+ b) = true.
Proof.
  induction a as [|c a IH]; [by destruct b|]. rewrite append_cons. simpl.
  by destruct (Ascii.ascii_dec c c).
Qed.

Lemma length_append a b :
  String.length (a +:+ b) = (String.length a + String.length b)%nat.
Proof.
  induction a as [|c a IH]; [done|]. rewrite append_cons. simpl. by rewrite IH.
Qed.

Lemma substring_all s : String.substring 0 (String.length s) s = s.
Proof. induction s as [|c s IH]; [done|]. simpl. by rewrite IH. Qed.

Lemma substring_append a b n :
  String.substring (String.length a) n (a +:+ b) = String.substring 0 n b.
Proof. induction a as [|c a IH]; [done|]. by rewrite append_cons. Qed.

Lemma endswith_append a suffix : PyStr.endswith (a +:+ suffix) suffix = true.
Proof.
  unfold PyStr.endswith. rewrite length_append.
  rewrite (proj2 (Nat.leb_le _ _)) by lia.
  replace (String.length a + String.length suffix - String.length suffix)%nat
    with (String.length a) by lia.
  rewrite substring_append, substring_all. apply String.eqb_refl.
Qed.

Lemma after_last_slash_plain tail name :
  all_chars not_slash name = true → after_last_slash tail name = tail.
Proof.
  revert tail. induction name as [|c name IH]; intros tail; simpl; [done|].
  unfold not_slash at 1. intros [Hc Hn]%andb_prop.
  destruct (Ascii.eqb c "/"); [done|]. by apply IH.
Qed.

(** the base name of [directory/name], for a name without a slash *)
Lemma basename_join directory name :
  all_chars not_slash name = true →
  basename (directory +:+ "/" +:+ name) = name.
Proof.
  intros Hn. unfold basename.
  generalize (directory +:+ "/" +:+ name) at 1.
  induction directory as [|c directory IH]; intros tail.
  - change ("" +:+ "/" +:+ name) with (String "/" name). simpl.
    by apply after_last_slash_plain.
  - rewrite append_cons. simpl. destruct (Ascii.eqb c "/"); apply IH.
Qed.

Lemma all_chars_append P a b :
  all_chars P (a +:+ b) = all_chars P a && all_chars P b.
Proof.
  induction a as [|c a IH]; [done|]. rewrite append_cons. simpl.
  by rewrite IH, andb_assoc.
Qed.

Lemma all_chars_substring P n m s :
  all_chars P s = true → all_chars P (String.substring n m s) = true.
Proof.
  revert n m. induction s as [|c s IH]; intros n m; simpl.
  - by destruct n, m.
  - intros [Hc Hs]%andb_prop. destruct n as [|n]; [|by apply IH].
    destruct m as [|m]; [done|]. simpl. by rewrite Hc, IH.
Qed.

Lemma hexdigit_not_slash d : 0 ≤ d < 16 → not_slash (Uuid.hexdigit d) = true.
Proof.
  intros Hd.
  assert (d ∈ [0; 1; 2; 3; 4; 5; 6; 7; 8; 9; 10; 11; 12; 13; 14; 15]) as Hin.
  { rewrite !elem_of_cons. lia. }
  rewrite !elem_of_cons in Hin.
  repeat (destruct Hin as [->|Hin]; [reflexivity|]). by apply elem_of_nil in Hin.
Qed.

Lemma hex_not_slash n x : all_chars not_slash (Uuid.hex n x) = true.
Proof.
  induction n as [|n IH]; [done|]. cbn [Uuid.hex all_chars].
  rewrite IH, andb_true_r. apply hexdigit_not_slash.
  change 0xf with (Z.ones 4). rewrite Z.land_ones by lia.
  apply Z.mod_pos_bound. lia.
Qed.

(** the name under which a track is staged has no slash and ends in .mp3 *)
Lemma stage_name_plain track :
  all_chars not_slash (stage_name track) = true
  ∧ PyStr.endswith (stage_name track) ".mp3" = true.
Proof.
  split; [|apply endswith_append].
  unfold stage_name, Uuid.str. cbv zeta.
  rewrite !all_chars_append, !all_chars_substring by apply hex_not_slash.
  reflexivity.
Qed.

(** ** The store *)

Lemma object_at_put key content l :
  list_to_map (M := gmap string Content) (put_object key content l) !! key
  = Some content.
Proof.
  induction l as [|[k c] l IH]; simpl.
  - apply lookup_insert_eq.
  - destruct (String.eqb_spec k key) as [->|Hne]; simpl.
    + apply lookup_insert_eq.
    + by rewrite lookup_insert_ne.
Qed.

Lemma object_at_put_ne key key' content l :
  key ≠ key' →
  list_to_map (M := gmap string Content) (put_object key content l) !! key'
  = list_to_map (M := gmap string Content) l !! key'.
Proof.
  intros Hne. induction l as [|[k c] l IH]; simpl.
  - by rewrite lookup_insert_ne.
  - destruct (String.eqb_spec k key) as [->|Hk]; simpl.
    + by rewrite !lookup_insert_ne.
    + destruct (decide (k = key')) as [->|Hk'].
      * by rewrite !lookup_insert_eq.
      * by rewrite !lookup_insert_ne.
Qed.

Lemma download_file_ok client remote_filename local_filename s u s' :
  download_file client remote_filename local_filename s = (Ok u, s') →
  ∃ c content,
    heap s !! s3_config client = Some c
    ∧ download_fault (env s) remote_filename = None
    ∧ object_at remote_filename s = Some content
    ∧ s' = set_local (dirs s) (<[local_filename := content]> (files s))
             (set_trace (trace s ++ [Download (bucket c) remote_filename
                                       local_filename]) s).
Proof.
  unfold download_file. intros (c & ? & [-> Hc]%deref_ok & E)%bind_ok.
  unfold except_ClientError, client_download_file in E.
  rewrite bind_run in E. simpl in E. rewrite bind_run in E. simpl in E.
  destruct (String.eqb remote_filename ""); [done|].
  destruct (download_fault _ _) as [[]|] eqn:Hf; simpl in E; try done.
  destruct (list_to_map _ !! _) as [content|] eqn:Ho; simpl in E; [|done].
  rewrite bind_run in E. unfold lift in E.
  destruct (creatable local_filename _) as [[]|e];
    [|by destruct e as [| | | | | | | | | | | | |[]| | |]].
  injection E as _ <-. by exists c, content.
Qed.

Lemma upload_file_ok client local_filename object_name s u s' :
  upload_file client local_filename object_name s = (Ok u, s') →
  ∃ c content,
    heap s !! s3_config client = Some c
    ∧ upload_fault (env s) object_name = None
    ∧ files s !! local_filename = Some content
    ∧ s' = set_objects (put_object object_name content (objects s))
             (set_trace (trace s ++ [Upload local_filename (bucket c)
                                       object_name]) s).
Proof.
  unfold upload_file. intros (c & ? & [-> Hc]%deref_ok & E)%bind_ok.
  unfold client_upload_file in E.
  rewrite bind_run in E. simpl in E. rewrite bind_run in E. simpl in E.
  destruct (files s !! _) as [content|] eqn:Ho; simpl in E; [|done].
  destruct (String.eqb object_name ""); [done|].
  destruct (upload_fault _ _) eqn:Hf; simpl in E; [done|].
  injection E as _ <-. by exists c, content.
Qed.

Lemma delete_file_ok client object_name s u s' :
  delete_file client object_name s = (Ok u, s') →
  ∃ c, heap s !! s3_config client = Some c
     ∧ delete_fault (env s) object_name = None
     ∧ s' = set_objects
              (filter (λ o, negb (String.eqb (fst o) object_name)) (objects s))
              (set_trace (trace s ++ [Delete (bucket c) object_name]) s).
Proof.
  unfold delete_file. intros (c & ? & [-> Hc]%deref_ok & E)%bind_ok.
  unfold client_delete_object in E.
  rewrite bind_run in E. simpl in E. rewrite bind_run in E. simpl in E.
  destruct (String.eqb object_name ""); [done|].
  destruct (delete_fault _ _) eqn:Hf; simpl in E; [done|].
  injection E as _ <-. by exists c.
Qed.

(** X3. The download of a key that the bucket does not hold raises
    InvalidPermissions, like a download that the store refuses: the one
    call to the store is made, and the bucket is as it was. *)
Theorem download_of_missing_object client remote_filename local_filename s c :
  heap s !! s3_config client = Some c →
  remote_filename ≠ "" →
  download_fault (env s) remote_filename = None →
  object_at remote_filename s = None →
  (download_file client remote_filename local_filename s).1
  = Raise InvalidPermissions
  ∧ trace (download_file client remote_filename local_filename s).2
    = (trace s ++ [Download (bucket c) remote_filename local_filename])%list
  ∧ objects (download_file client remote_filename local_filename s).2
    = objects s.
Proof.
  intros Hc Hk Hf Ho. unfold download_file.
  rewrite bind_run, (deref_run _ _ c) by done.
  unfold except_ClientError, client_download_file.
  rewrite bind_run. simpl. rewrite bind_run. simpl.
  rewrite (proj2 (String.eqb_neq _ _) Hk), Hf.
  unfold object_at in Ho. simpl. by rewrite Ho.
Qed.

Lemma download_of_missing_object_witness :
  let w := configured
             (sample_world
                (sample_ini "true" "track_list" standard_mask "true" "true")
                sample_bucket ∅) in
  (download_file sample_client "music/02.mp3" "/tmp/cache/a.mp3" w).1
  = Raise InvalidPermissions
  ∧ objects (download_file sample_client "music/02.mp3" "/tmp/cache/a.mp3" w).2
    = sample_bucket.
Proof.
  intros w.
  pose (c := {| path := "/opt/sortie/conf/sortie.ini";
                environment := "default"; bucket := "tunes";
                log_to_file := true; max_logging_level := 4;
                log_file := Some "/var/log/sortie.log";
                ingestion_mode := "track_list";
                track_list := Some "/srv/tracks.json";
                cache_dir := "/tmp/cache"; sort_mask := standard_mask;
                clean_up := true; persistent_cache := true |}).
  destruct (download_of_missing_object sample_client "music/02.mp3"
              "/tmp/cache/a.mp3" w c) as (Hr & _ & Ho).
  - vm_compute. reflexivity.
  - discriminate.
  - reflexivity.
  - vm_compute. reflexivity.
  - split; [exact Hr | exact Ho].
Defined.

Lemma filter_all {A} (P : A → Prop) `{!∀ x, Decision (P x)} (l : list A) :
  (∀ x, P x) → filter P l = l.
Proof.
  intros HP. induction l as [|x l IH]; [done|].
  by rewrite filter_cons_True, IH.
Qed.

(** X7. When [delete_source_tracks] returns, it has called the delete of
    the store once for each track, in their order, and the bucket holds
    exactly the objects it held whose keys are not among the tracks: it
    deletes every track and nothing else. *)
Theorem delete_source_tracks_deletes_the_tracks client tracks s c u s' :
  heap s !! s3_config client = Some c →
  delete_source_tracks client tracks s = (Ok u, s') →
  trace s' = (trace s ++ (Delete (bucket c) <$> tracks))%list
  ∧ objects s' = filter (λ o, fst o ∉ tracks) (objects s).
Proof.
  unfold delete_source_tracks. revert s.
  induction tracks as [|track tracks IH]; intros s Hc; cbn [for_each].
  - intros [= _ <-]. split; [by rewrite app_nil_r|]. symmetry.
    apply filter_all. intros o. apply not_elem_of_nil.
  - intros ([] & s1 & (c1 & Hc1 & _ & ->)%delete_file_ok & E)%bind_ok.
    rewrite Hc in Hc1. injection Hc1 as <-.
    apply IH in E as [Ht Ho]; [|exact Hc]. simpl in Ht, Ho. split.
    + by rewrite Ht, <- app_assoc.
    + rewrite Ho, list_filter_filter. apply list_filter_iff.
      intros [k content]. simpl. rewrite not_elem_of_cons.
      destruct (String.eqb_spec k track); simpl; intuition done.
Qed.

Lemma delete_source_tracks_deletes_the_tracks_witness :
  let w := configured
             (sample_world
                (sample_ini "true" "track_list" standard_mask "true" "true")
                sample_bucket ∅) in
  trace (delete_source_tracks sample_client ["music/01.mp3"; "music/02.mp3"]
           w).2
  = [Delete "tunes" "music/01.mp3"; Delete "tunes" "music/02.mp3"]
  ∧ objects (delete_source_tracks sample_client
               ["music/01.mp3"; "music/02.mp3"] w).2
    = [("music/notes.txt", Unreadable)].
Proof.
  intros w.
  pose (c := {| path := "/opt/sortie/conf/sortie.ini";
                environment := "default"; bucket := "tunes";
                log_to_file := true; max_logging_level := 4;
                log_file := Some "/var/log/sortie.log";
                ingestion_mode := "track_list";
                track_list := Some "/srv/tracks.json";
                cache_dir := "/tmp/cache"; sort_mask := standard_mask;
                clean_up := true; persistent_cache := true |}).
  destruct (delete_source_tracks_deletes_the_tracks sample_client
              ["music/01.mp3"; "music/02.mp3"] w c tt
              (delete_source_tracks sample_client
                 ["music/01.mp3"; "music/02.mp3"] w).2) as [Ht Ho].
  - vm_compute. reflexivity.
  - apply run_ok. vm_compute. reflexivity.
  - split; [exact Ht|]. rewrite Ho. vm_compute. reflexivity.
Defined.

(** ** The configuration *)

(** the steps [m s = (Ok a, s')] among the hypotheses that cannot change the
    state are rewritten with [s' = s] *)
Ltac unchanged_steps :=
  repeat match goal with
  | H : ?m ?s = (Ok _, ?s') |- _ =>
      is_var s';
      tryif constr_eq s s' then fail else idtac;
      let E := fresh in
      assert (same whole s s') as E
        by (refine (always_run (same whole) m s _ s' _ H); always_all);
      unfold same, whole in E; subst s'
  end.

Lemma sane_get_ok parser header key s val s' :
  sane_get parser header key s = (Ok val, s') →
  ini_option parser header key = Some val.
Proof.
  unfold sane_get, ini_option. by destruct (_ ≫= _); intros [= <- <-].
Qed.

Lemma sane_get_then_ok {A} parser header key (convert : string → M A) s a s' :
  (sane_get parser header key ≫= convert) s = (Ok a, s') →
  is_Some (ini_option parser header key).
Proof. intros (val & ? & ?%sane_get_ok & _)%bind_ok. by exists val. Qed.

Lemma optional_get_ok (b : bool) parser header key s val s' :
  (if b then Some <$> sane_get parser header key else mret None) s
  = (Ok val, s') →
  if b then is_Some val ∧ val = ini_option parser header key else val = None.
Proof.
  destruct b; [|by intros [= <- <-]].
  intros (v & ? & Hv%sane_get_ok & [= <- <-])%bind_ok. by rewrite Hv.
Qed.

(** what a [Config] that has been built says of the ini file and of the
    state *)
Lemma Config_init_ok filepath s config s1 :
  Config_init filepath s = (Ok config, s1) →
  ∃ parser c,
    ini_files (env s) !! filepath = Some parser
    ∧ config = length (heap s)
    ∧ heap s1 = (heap s ++ [c])%list
    ∧ files s1 = files s ∧ trace s1 = trace s ∧ objects s1 = objects s
    ∧ dirs s1
      = (if bool_decide (cache_dir c ∈ dirs s)
            || bool_decide (is_Some (files s !! cache_dir c))
         then dirs s else {[cache_dir c]} ∪ dirs s)
    ∧ path c = filepath
    ∧ ini_option parser "aws" "environment" = Some (environment c)
    ∧ ini_option parser "bucket" "name" = Some (bucket c)
    ∧ is_Some (ini_option parser "logging" "log_to_file")
    ∧ is_Some (ini_option parser "logging" "logging_level")
    ∧ (if log_to_file c
       then is_Some (log_file c)
            ∧ log_file c = ini_option parser "logging" "log_file"
       else log_file c = None)
    ∧ ini_option parser "ingestion" "mode" = Some (ingestion_mode c)
    ∧ (if String.eqb (ingestion_mode c) "track_list"
       then is_Some (track_list c)
            ∧ track_list c = ini_option parser "ingestion" "track_list"
       else track_list c = None)
    ∧ ini_option parser "cache" "directory" = Some (cache_dir c)
    ∧ ini_option parser "targeting" "sort_mask" = Some (sort_mask c)
    ∧ is_Some (ini_option parser "targeting" "clean_up")
    ∧ is_Some (ini_option parser "cache" "persistent").
Proof.
  unfold Config_init. intros (? & ? & [= <- <-] & E)%bind_ok.
  destruct (ini_files (env s) !! filepath) as [parser|]; [|done].
  apply bind_ok in E as (environment & s2 & E1 & E).
  apply bind_ok in E as (bucket & s3 & E2 & E).
  apply bind_ok in E as (log_to_file & s4 & E3 & E).
  apply bind_ok in E as (max_logging_level & s5 & E4 & E).
  apply bind_ok in E as (log_file & s6 & E5 & E).
  apply bind_ok in E as (ingestion_mode & s7 & E6 & E).
  apply bind_ok in E as (track_list & s8 & E7 & E).
  apply bind_ok in E as (cache_dir & s9 & E8 & E).
  apply bind_ok in E as (present & s10 & E9 & E).
  apply bind_ok in E as ([] & s11 & E10 & E).
  apply bind_ok in E as (sort_mask & s12 & E11 & E).
  apply bind_ok in E as (clean_up & s13 & E12 & E).
  apply bind_ok in E as (persistent_cache & s14 & E13 & E).
  unchanged_steps.
  injection E9 as <-. injection E as <- <-.
  exists parser,
    {| path := filepath; environment := environment; bucket := bucket;
       log_to_file := log_to_file; max_logging_level := max_logging_level;
       log_file := log_file; ingestion_mode := ingestion_mode;
       track_list := track_list; cache_dir := cache_dir;
       sort_mask := sort_mask; clean_up := clean_up;
       persistent_cache := persistent_cache |}.
  assert (heap s11 = heap s ∧ files s11 = files s ∧ trace s11 = trace s
          ∧ objects s11 = objects s
          ∧ dirs s11
            = (if bool_decide (cache_dir ∈ dirs s)
                  || bool_decide (is_Some (files s !! cache_dir))
               then dirs s else {[cache_dir]} ∪ dirs s))
    as (Hh & Hf & Ht & Ho & Hd)
    by (by destruct (_ || _); injection E10 as <-).
  simpl. rewrite Hh, Hf, Ht, Ho, Hd.
  split_and!; try done; try (by eapply sane_get_ok);
    try (by eapply sane_get_then_ok); by eapply optional_get_ok.
Qed.

(** X8. A [Config] is built only from an ini file that has all the options
    the script needs: the nine that are always read, log_file when
    log_to_file is true, and track_list when the mode is track_list. Its
    text attributes are the values of the options, as they stand. *)
Theorem Config_reads_its_options filepath s config s1 c :
  Config_init filepath s = (Ok config, s1) →
  heap s1 !! config = Some c →
  ∃ parser,
    ini_files (env s) !! filepath = Some parser
    ∧ ini_option parser "aws" "environment" = Some (environment c)
    ∧ ini_option parser "bucket" "name" = Some (bucket c)
    ∧ is_Some (ini_option parser "logging" "log_to_file")
    ∧ is_Some (ini_option parser "logging" "logging_level")
    ∧ (log_to_file c = true →
         is_Some (log_file c)
         ∧ ini_option parser "logging" "log_file" = log_file c)
    ∧ ini_option parser "ingestion" "mode" = Some (ingestion_mode c)
    ∧ (ingestion_mode c = "track_list" →
         is_Some (track_list c)
         ∧ ini_option parser "ingestion" "track_list" = track_list c)
    ∧ ini_option parser "cache" "directory" = Some (cache_dir c)
    ∧ ini_option parser "targeting" "sort_mask" = Some (sort_mask c)
    ∧ is_Some (ini_option parser "targeting" "clean_up")
    ∧ is_Some (ini_option parser "cache" "persistent").
Proof.
  intros (parser & c' & Hp & -> & Hh & _ & _ & _ & _ & _ & He & Hb & Hl & Hv
          & Hlf & Hm & Htl & Hcd & Hsm & Hcu & Hpc)%Config_init_ok Hc.
  rewrite Hh, lookup_app_r, Nat.sub_diag in Hc by done. injection Hc as <-.
  exists parser. split_and!; try done.
  - intros Ht. rewrite Ht in Hlf. by destruct Hlf.
  - intros Ht. rewrite Ht in Htl. by destruct Htl.
Qed.

Lemma Config_reads_its_options_witness :
  let w := sample_world
             (sample_ini "true" "track_list" standard_mask "true" "false")
             sample_bucket ∅ in
  ini_option (sample_ini "true" "track_list" standard_mask "true" "false")
    "ingestion" "track_list" = Some "/srv/tracks.json".
Proof.
  intros w.
  pose (c := {| path := "/opt/sortie/conf/sortie.ini";
                environment := "default"; bucket := "tunes";
                log_to_file := true; max_logging_level := 4;
                log_file := Some "/var/log/sortie.log";
                ingestion_mode := "track_list";
                track_list := Some "/srv/tracks.json";
                cache_dir := "/tmp/cache"; sort_mask := standard_mask;
                clean_up := true; persistent_cache := false |}).
  destruct (Config_reads_its_options "/opt/sortie/conf/sortie.ini" w 0%nat
              (Config_init "/opt/sortie/conf/sortie.ini" w).2 c)
    as (parser & Hp & _ & _ & _ & _ & _ & _ & Htl & _).
  - apply run_ok. vm_compute. reflexivity.
  - vm_compute. reflexivity.
  - change (ini_files (env w) !! "/opt/sortie/conf/sortie.ini")
      with (({[ "/opt/sortie/conf/sortie.ini" :=
                  sample_ini "true" "track_list" standard_mask "true" "false"
             ]} : gmap string Ini) !! "/opt/sortie/conf/sortie.ini") in Hp.
    rewrite lookup_singleton_eq in Hp. injection Hp as <-.
    by destruct (Htl eq_refl) as [_ ->].
Defined.

(** X9. Building a [Config] adds one object to the heap, at a fresh
    address, and leaves the others; it creates the cache directory when
    nothing exists at its path and changes no other directory; afterwards
    something exists at the path of the cache directory. It writes no file
    and calls the store not at all. *)
Theorem Config_creates_the_cache_directory filepath s config s1 :
  Config_init filepath s = (Ok config, s1) →
  ∃ c,
    heap s1 = (heap s ++ [c])%list
    ∧ config = length (heap s)
    ∧ (cache_dir c ∈ dirs s1 ∨ is_Some (files s1 !! cache_dir c))
    ∧ dirs s ⊆ dirs s1
    ∧ (∀ d, d ∈ dirs s1 → d ∈ dirs s ∨ d = cache_dir c)
    ∧ files s1 = files s
    ∧ trace s1 = trace s
    ∧ objects s1 = objects s.
Proof.
  intros (parser & c & _ & -> & Hh & Hf & Ht & Ho & Hd & _)%Config_init_ok.
  exists c. rewrite Hd, Hf. split_and!; try done.
  - destruct (bool_decide (cache_dir c ∈ dirs s)) eqn:H1; simpl.
    { left. by apply bool_decide_eq_true in H1. }
    destruct (bool_decide (is_Some (files s !! cache_dir c))) eqn:H2; simpl.
    { right. by apply bool_decide_eq_true in H2. }
    left. apply elem_of_union_l. by apply elem_of_singleton.
  - destruct (_ || _); [done | apply union_subseteq_r].
  - intros d. destruct (_ || _); [by left|].
    rewrite elem_of_union, elem_of_singleton. tauto.
Qed.

Lemma Config_creates_the_cache_directory_witness :
  let w := sample_world
             (sample_ini "true" "track_list" standard_mask "true" "false")
             sample_bucket ∅ in
  dirs w = ∅
  ∧ "/tmp/cache" ∈ dirs (Config_init "/opt/sortie/conf/sortie.ini" w).2.
Proof.
  intros w. split; [reflexivity|].
  destruct (Config_creates_the_cache_directory "/opt/sortie/conf/sortie.ini"
              w 0%nat (Config_init "/opt/sortie/conf/sortie.ini" w).2)
    as (c & Hh & _ & [Hd|Hf] & _ & _ & Hfiles & _).
  - apply run_ok. vm_compute. reflexivity.
  - assert (cache_dir c = "/tmp/cache") as <-; [|exact Hd].
    assert (heap (Config_init "/opt/sortie/conf/sortie.ini" w).2 !! 0%nat
            = Some c) as Hc by (by rewrite Hh).
    vm_compute in Hc. by injection Hc as <-.
  - rewrite Hfiles in Hf. destruct Hf as [x Hx].
    change (files w) with (∅ : gmap string Content) in Hx.
    by rewrite lookup_empty in Hx.
Defined.

(** ** The enumeration of the tracks *)

Lemma keep_tracks_ok items s tracks s' :
  keep_tracks items s = (Ok tracks, s') →
  Forall (λ track, PyStr.endswith track ".mp3" = true ∧ JString track ∈ items)
    tracks.
Proof.
  revert tracks. induction items as [|item items IH]; intros tracks; simpl.
  - by intros [= <- <-].
  - destruct item as [| | |track| |]; try done.
    intros (tracks' & ? & Hr & [= <- <-])%bind_ok.
    assert (Forall (λ t, PyStr.endswith t ".mp3" = true
                         ∧ JString t ∈ JString track :: items) tracks')
      as Hall.
    { eapply Forall_impl; [by apply IH|]. intros t [? ?]. split; [done|].
      by apply list_elem_of_further. }
    destruct (PyStr.endswith track ".mp3") eqn:Hend; [|done].
    constructor; [|done]. split; [done | apply list_elem_of_here].
Qed.

Lemma ingest_trackfile_ok filepath s tracks s' :
  ingest_trackfile filepath s = (Ok tracks, s') →
  Forall (λ track, PyStr.endswith track ".mp3" = true) tracks.
Proof.
  unfold ingest_trackfile. intros (? & ? & [= <- <-] & E)%bind_ok.
  destruct (json_files (env s) !! filepath) as [[data|]|]; try done.
  apply bind_ok in E as (input & ? & _ & E).
  apply bind_ok in E as (items & ? & _ & E).
  eapply Forall_impl; [by eapply keep_tracks_ok|]. by intros t [? _].
Qed.

Lemma filter_mp3_ok (l : list string) :
  Forall (λ track, PyStr.endswith track ".mp3" = true)
    (filter (λ track, PyStr.endswith track ".mp3" = true) l).
Proof. apply Forall_forall. by intros t [? _]%list_elem_of_filter. Qed.

Lemma ingest_cache_ok directory s tracks s' :
  ingest_cache directory s = (Ok tracks, s') →
  Forall (λ track, PyStr.endswith track ".mp3" = true) tracks.
Proof.
  unfold ingest_cache. intros (? & ? & [= <- <-] & [= <- <-])%bind_ok.
  apply filter_mp3_ok.
Qed.

Lemma ingest_s3_ok orchestrator s tracks s' :
  ingest_s3 orchestrator s = (Ok tracks, s') →
  Forall (λ track, PyStr.endswith track ".mp3" = true) tracks.
Proof.
  unfold ingest_s3. intros (? & ? & _ & E)%bind_ok.
  apply bind_ok in E as (c & ? & _ & E).
  apply bind_ok in E as (contents & ? & _ & [= <- <-]).
  apply Forall_forall. intros t [Ht _]%list_elem_of_filter.
  by apply andb_prop in Ht as [_ ?].
Qed.

(** X11. Whatever the mode and whatever the manifest, the bucket or the
    cache hold, every track that a [TrackLister] has enumerated ends in
    .mp3; and a [TrackLister] is built only in one of the three modes
    track_list, dynamic and cache. *)
Theorem TrackLister_lists_mp3_only config orchestrator s lister s' :
  TrackLister_init config orchestrator s = (Ok lister, s') →
  Forall (λ track, PyStr.endswith track ".mp3" = true) (tl_tracks lister)
  ∧ tl_mode lister ∈ ["track_list"; "dynamic"; "cache"]
  ∧ ∃ c, heap s !! config = Some c ∧ tl_mode lister = ingestion_mode c.
Proof.
  unfold TrackLister_init. intros (slog & s1 & E1 & E)%bind_ok.
  apply bind_ok in E as (c & s2 & E2 & E).
  apply bind_ok in E as (tracks & s3 & E3 & [= <- <-]). simpl.
  unchanged_steps. apply deref_ok in E2 as [_ Hc].
  destruct (String.eqb_spec (ingestion_mode c) "track_list") as [Hm|_].
  { apply bind_ok in E3 as (? & ? & _ & E3).
    apply bind_ok in E3 as (? & ? & _ & E3).
    split_and!; [by eapply ingest_trackfile_ok | | by exists c].
    rewrite Hm, !elem_of_cons. tauto. }
  destruct (String.eqb_spec (ingestion_mode c) "dynamic") as [Hm|_].
  { split_and!; [by eapply ingest_s3_ok | | by exists c].
    rewrite Hm, !elem_of_cons. tauto. }
  destruct (String.eqb_spec (ingestion_mode c) "cache") as [Hm|_]; [|done].
  apply bind_ok in E3 as (? & ? & _ & E3).
  split_and!; [by eapply ingest_cache_ok | | by exists c].
  rewrite Hm, !elem_of_cons. tauto.
Qed.

Lemma TrackLister_lists_mp3_only_witness :
  Forall (λ track, PyStr.endswith track ".mp3" = true) ["music/01.mp3"]
  ∧ "track_list" ∈ ["track_list"; "dynamic"; "cache"].
Proof.
  pose (w := configured
               (sample_world
                  (sample_ini "true" "track_list" standard_mask "true" "true")
                  sample_bucket ∅)).
  pose (lister := {| tl_config := 0%nat;
                     tl_slog := {| mask_name := "TrackLister"; verbosity := 4;
                                   logger_log_to_file := true;
                                   logger_log_file := "/var/log/sortie.log" |};
                     tl_mode := "track_list";
                     tl_tracks := ["music/01.mp3"] |}).
  destruct (TrackLister_lists_mp3_only 0%nat None w lister
              (TrackLister_init 0%nat None w).2) as (Hall & Hmode & _).
  - apply run_ok. vm_compute. reflexivity.
  - split; [exact Hall | exact Hmode].
Defined.

Lemma Logger_init_run mask config s c file :
  heap s !! config = Some c → log_file c = Some file →
  Logger_init mask config s
  = (Ok {| mask_name := mask; verbosity := max_logging_level c;
           logger_log_to_file := log_to_file c; logger_log_file := file |}, s).
Proof.
  intros Hc Hf. unfold Logger_init.
  by rewrite bind_run, (deref_run _ _ c), Hf.
Qed.

(** X12. In a mode other than track_list, dynamic and cache, building a
    [TrackLister] raises InvalidValue, and it does so without a call to the
    store: the bucket is as it was, whether or not an orchestrator is
    given. *)
Theorem TrackLister_rejects_unknown_mode config orchestrator s c file :
  heap s !! config = Some c →
  log_file c = Some file →
  ingestion_mode c ∉ ["track_list"; "dynamic"; "cache"] →
  (TrackLister_init config orchestrator s).1 = Raise InvalidValue
  ∧ trace (TrackLister_init config orchestrator s).2 = trace s
  ∧ objects (TrackLister_init config orchestrator s).2 = objects s.
Proof.
  intros Hc Hf Hm. rewrite !not_elem_of_cons in Hm.
  destruct Hm as (H1 & H2 & H3 & _).
  unfold TrackLister_init.
  rewrite bind_run, (Logger_init_run _ _ _ c file) by done.
  rewrite bind_run, (deref_run _ _ c) by done.
  rewrite bind_run.
  by rewrite (proj2 (String.eqb_neq _ _) H1), (proj2 (String.eqb_neq _ _) H2),
    (proj2 (String.eqb_neq _ _) H3).
Qed.

Lemma TrackLister_rejects_unknown_mode_witness :
  let w := configured
             (sample_world
                (sample_ini "true" "Dynamic" standard_mask "true" "true")
                sample_bucket ∅) in
  (TrackLister_init 0%nat (Some sample_client) w).1 = Raise InvalidValue
  ∧ trace (TrackLister_init 0%nat (Some sample_client) w).2 = []
  ∧ objects (TrackLister_init 0%nat (Some sample_client) w).2 = sample_bucket.
Proof.
  intros w.
  pose (c := {| path := "/opt/sortie/conf/sortie.ini";
                environment := "default"; bucket := "tunes";
                log_to_file := true; max_logging_level := 4;
                log_file := Some "/var/log/sortie.log";
                ingestion_mode := "Dynamic"; track_list := None;
                cache_dir := "/tmp/cache"; sort_mask := standard_mask;
                clean_up := true; persistent_cache := true |}).
  apply (TrackLister_rejects_unknown_mode 0%nat (Some sample_client) w c
           "/var/log/sortie.log").
  - vm_compute. reflexivity.
  - reflexivity.
  - rewrite !not_elem_of_cons. split_and!; [discriminate..|].
    apply not_elem_of_nil.
Defined.

Lemma keep_tracks_characters (l : list ascii) s :
  keep_tracks ((λ c, JString (String c EmptyString)) <$> l) s = (Ok [], s).
Proof.
  induction l as [|c l IH]; [done|].
  cbn [fmap list_fmap keep_tracks]. rewrite bind_run.
  change (list_fmap _ _ ?f l) with (f <$> l). by rewrite IH.
Qed.

(** X13. A manifest whose input member is a string, not an array of
    strings, gives no track and no error: the loop runs through the
    characters of the string, none of which ends in .mp3. *)
Theorem manifest_with_string_input filepath s data text :
  json_files (env s) !! filepath = Some (Some data) →
  (subscript_input data s).1 = Ok (JString text) →
  ingest_trackfile filepath s = (Ok [], s).
Proof.
  intros Hf Hin. unfold ingest_trackfile. rewrite bind_run. simpl.
  rewrite Hf, bind_run.
  pose proof (subscript_input_state data s) as Hs.
  destruct (subscript_input data s) as [r s1]. simpl in *. subst r s1.
  rewrite bind_run. simpl. apply keep_tracks_characters.
Qed.

Lemma manifest_with_string_input_witness :
  let w := with_manifest (JObject [("input", JString "music/01.mp3")])
             (sample_world
                (sample_ini "true" "track_list" standard_mask "true" "true")
                sample_bucket ∅) in
  ingest_trackfile "/srv/tracks.json" w = (Ok [], w).
Proof.
  intros w.
  apply (manifest_with_string_input "/srv/tracks.json" w
           (JObject [("input", JString "music/01.mp3")]) "music/01.mp3").
  - exact (lookup_singleton_eq _ _).
  - reflexivity.
Defined.

Lemma keep_tracks_not_a_string items s :
  (∃ item, item ∈ items ∧ ∀ track, item ≠ JString track) →
  keep_tracks items s = (Raise AttributeError, s).
Proof.
  intros (item & Hin & Hitem).
  induction items as [|x items IH]; [by apply elem_of_nil in Hin|].
  apply elem_of_cons in Hin as [<-|Hin].
  - destruct item as [| | |track| |]; try done. by destruct (Hitem track).
  - destruct x; try done. cbn [keep_tracks]. by rewrite bind_run, IH.
Qed.

(** X14. A manifest whose input array has an entry that is not a string
    gives no track at all: [ingest_trackfile] raises AttributeError,
    wherever the entry stands and whatever the other entries are. *)
Theorem manifest_with_entry_not_a_string filepath s data items item :
  json_files (env s) !! filepath = Some (Some data) →
  (subscript_input data s).1 = Ok (JArray items) →
  item ∈ items →
  (∀ track, item ≠ JString track) →
  ingest_trackfile filepath s = (Raise AttributeError, s).
Proof.
  intros Hf Hin Hitem Hns. unfold ingest_trackfile. rewrite bind_run. simpl.
  rewrite Hf, bind_run.
  pose proof (subscript_input_state data s) as Hs.
  destruct (subscript_input data s) as [r s1]. simpl in *. subst r s1.
  rewrite bind_run. simpl. apply keep_tracks_not_a_string. eauto.
Qed.

Lemma manifest_with_entry_not_a_string_witness :
  let w := with_manifest
             (JObject [("input", JArray [JString "music/01.mp3"; JNull])])
             (sample_world
                (sample_ini "true" "track_list" standard_mask "true" "true")
                sample_bucket ∅) in
  ingest_trackfile "/srv/tracks.json" w = (Raise AttributeError, w).
Proof.
  intros w.
  apply (manifest_with_entry_not_a_string "/srv/tracks.json" w
           (JObject [("input", JArray [JString "music/01.mp3"; JNull])])
           [JString "music/01.mp3"; JNull] JNull).
  - exact (lookup_singleton_eq _ _).
  - reflexivity.
  - apply list_elem_of_further, list_elem_of_here.
  - discriminate.
Defined.

(** X15. In live-scan mode an empty bucket is an error, not an empty
    enumeration: the listing has no member Contents, and [ingest_s3] raises
    the KeyError of Python, which nothing translates. *)
Theorem live_scan_of_empty_bucket orchestrator s c :
  heap s !! s3_config orchestrator = Some c →
  list_fault (env s) = None →
  objects s = [] →
  ingest_s3 (Some orchestrator) s
  = (Raise KeyError, set_trace (trace s ++ [ListObjects (bucket c)]) s).
Proof.
  intros Hc Hf Ho. unfold ingest_s3. rewrite bind_run. simpl.
  rewrite bind_run, (deref_run _ _ c) by done. rewrite bind_run.
  unfold list_bucket_contents, except_ClientError, paginate.
  rewrite bind_run. simpl. rewrite bind_run. simpl. by rewrite Hf, Ho.
Qed.

Lemma live_scan_of_empty_bucket_witness :
  let w := configured
             (sample_world
                (sample_ini "true" "dynamic" standard_mask "true" "true")
                [] ∅) in
  (ingest_s3 (Some sample_client) w).1 = Raise KeyError.
Proof.
  intros w.
  pose (c := {| path := "/opt/sortie/conf/sortie.ini";
                environment := "default"; bucket := "tunes";
                log_to_file := true; max_logging_level := 4;
                log_file := Some "/var/log/sortie.log";
                ingestion_mode := "dynamic"; track_list := None;
                cache_dir := "/tmp/cache"; sort_mask := standard_mask;
                clean_up := true; persistent_cache := true |}).
  rewrite (live_scan_of_empty_bucket sample_client w c).
  - reflexivity.
  - vm_compute. reflexivity.
  - reflexivity.
  - reflexivity.
Defined.

(** ** The download step and the cache *)

Lemma append_assoc a b c : (a +:+ b) +:+ c = a +:+ (b +:+ c).
Proof. induction a as [|x a IH]; [done|]. by rewrite !append_cons, IH. Qed.

Lemma parent_join directory name :
  all_chars not_slash name = true →
  parent (directory +:+ "/" +:+ name) = Some directory.
Proof.
  intros Hname.
  assert (parent name = None) as Hn.
  { induction name as [|x name IH]; [done|]. simpl in Hname.
    apply andb_true_iff in Hname as [Hx Hname]. simpl. rewrite IH by done.
    unfold not_slash in Hx. by destruct (Ascii.eqb x "/"). }
  induction directory as [|x directory IH].
  - change ("" +:+ "/" +:+ name) with (String "/" name). simpl. by rewrite Hn.
  - rewrite append_cons. simpl. by rewrite IH.
Qed.

(** a file can be created in a directory that is there, under a name
    without a slash *)
Lemma creatable_in directory name s :
  directory ∈ dirs s → all_chars not_slash name = true →
  creatable (directory +:+ "/" +:+ name) s = Ok tt.
Proof.
  intros Hd Hname. unfold creatable. rewrite parent_join by done.
  destruct directory; [done|]. by rewrite bool_decide_eq_true_2.
Qed.

(** one download into a file that can be created: the call is made, and
    the outcome is the answer of the store *)
Lemma download_file_run client key local_filename s c' :
  heap s !! s3_config client = Some c' →
  creatable local_filename s = Ok tt →
  (download_file client key local_filename s).1
  = from_option Raise (Ok tt) (download_refusal s key)
  ∧ trace (download_file client key local_filename s).2
    = (trace s ++ [Download (bucket c') key local_filename])%list
  ∧ heap (download_file client key local_filename s).2 = heap s
  ∧ env (download_file client key local_filename s).2 = env s
  ∧ objects (download_file client key local_filename s).2 = objects s
  ∧ dirs (download_file client key local_filename s).2 = dirs s.
Proof.
  intros Hc Hdir. unfold download_file, download_refusal, object_at.
  rewrite bind_run, (deref_run _ _ c') by done.
  unfold except_ClientError, client_download_file.
  rewrite bind_run. simpl. rewrite bind_run. simpl.
  destruct (String.eqb key ""); [done|].
  destruct (download_fault _ _) as [[]|]; simpl; try done.
  destruct (list_to_map _ !! _); [|done].
  rewrite bind_run.
  replace (creatable local_filename _) with (Ok tt : res unit); done.
Qed.

Lemma download_refusal_later s s' key :
  env s' = env s → objects s' = objects s →
  download_refusal s' key = download_refusal s key.
Proof.
  intros He Ho. unfold download_refusal, object_at. by rewrite He, Ho.
Qed.

(** X16. The download step calls the download of the store for the tracks
    in their order, each into the file that its name gives in the cache
    directory, which is there. When the store gives every object the step
    returns, having made one call for each track; when it does not give
    one (the key is not in the bucket, is refused or is empty) the step
    raises the error of [download_file] at that call, after the calls for
    the tracks before it and without any call for the tracks after it. *)
Theorem download_step_stops_at_first_failure config client before s c c' :
  heap s !! config = Some c →
  heap s !! s3_config client = Some c' →
  cache_dir c ∈ dirs s →
  Forall (λ track, download_refusal s track = None) before →
  (download_all_tracks config client before s).1 = Ok tt
  ∧ trace (download_all_tracks config client before s).2
    = (trace s ++ (download_call c c' <$> before))%list
  ∧ ∀ track after e,
      download_refusal s track = Some e →
      (download_all_tracks config client (before ++ track :: after) s).1
      = Raise e
      ∧ trace (download_all_tracks config client (before ++ track :: after)
                 s).2
        = (trace s ++ (download_call c c' <$> before ++ [track]))%list.
Proof.
  unfold download_all_tracks. revert s.
  set (step := λ track, deref config ≫= λ c0,
                 download_file client track
                   (local_filename (cache_dir c0) track)).
  assert (∀ track s, heap s !! config = Some c →
            heap s !! s3_config client = Some c' → cache_dir c ∈ dirs s →
            (step track s).1
            = from_option Raise (Ok tt) (download_refusal s track)
            ∧ trace (step track s).2
              = (trace s ++ [download_call c c' track])%list
            ∧ heap (step track s).2 = heap s ∧ env (step track s).2 = env s
            ∧ objects (step track s).2 = objects s
            ∧ dirs (step track s).2 = dirs s) as Hone.
  { intros track s Hc Hc' Hd. unfold step.
    rewrite bind_run, (deref_run _ _ c) by done.
    apply download_file_run; [done|].
    apply creatable_in; [done | apply stage_name_plain]. }
  induction before as [|first before IH]; intros s Hc Hc' Hd Hgiven.
  - split_and!; [done | by rewrite app_nil_r |].
    intros track after e He. cbn [app for_each]. rewrite bind_run.
    destruct (Hone track s Hc Hc' Hd) as (Hr & Ht & _). rewrite He in Hr.
    by destruct (step track s) as [[[]|e'] s1]; simplify_eq/=.
  - apply Forall_cons in Hgiven as [Hfirst Hgiven].
    destruct (Hone first s Hc Hc' Hd) as (Hr & Ht & Hh & He & Ho & Hdirs).
    rewrite Hfirst in Hr. cbn [app for_each fmap list_fmap].
    assert (∀ rest,
      (step first ≫= λ _, for_each step rest) s
      = for_each step rest (step first s).2) as Hstep.
    { intros rest. rewrite bind_run.
      by destruct (step first s) as [[[]|e'] s1]; simplify_eq/=. }
    destruct (IH (step first s).2) as (Hok & Htrace & Hstop).
    { by rewrite Hh. }
    { by rewrite Hh. }
    { by rewrite Hdirs. }
    { eapply Forall_impl; [exact Hgiven|]. intros track Hn. simpl in Hn.
      by rewrite (download_refusal_later s). }
    rewrite !Hstep. split_and!.
    + done.
    + by rewrite Htrace, Ht, <- app_assoc.
    + intros track after e Hrefused. rewrite Hstep.
      destruct (Hstop track after e) as [Hraise Htrace'].
      { by rewrite (download_refusal_later s). }
      split; [done|]. by rewrite Htrace', Ht, <- app_assoc.
Qed.

Lemma download_step_stops_at_first_failure_witness :
  let w := configured
             (sample_world
                (sample_ini "true" "track_list" standard_mask "true" "true")
                sample_bucket ∅) in
  (download_all_tracks 0%nat sample_client
     ["music/01.mp3"; "music/02.mp3"; "music/01.mp3"] w).1
  = Raise InvalidPermissions
  ∧ trace (download_all_tracks 0%nat sample_client
             ["music/01.mp3"; "music/02.mp3"; "music/01.mp3"] w).2
    = [Download "tunes" "music/01.mp3"
         (local_filename "/tmp/cache" "music/01.mp3");
       Download "tunes" "music/02.mp3"
         (local_filename "/tmp/cache" "music/02.mp3")].
Proof.
  intros w.
  pose (c := {| path := "/opt/sortie/conf/sortie.ini";
                environment := "default"; bucket := "tunes";
                log_to_file := true; max_logging_level := 4;
                log_file := Some "/var/log/sortie.log";
                ingestion_mode := "track_list";
                track_list := Some "/srv/tracks.json";
                cache_dir := "/tmp/cache"; sort_mask := standard_mask;
                clean_up := true; persistent_cache := true |}).
  destruct (download_step_stops_at_first_failure 0%nat sample_client
              ["music/01.mp3"] w c c) as (_ & _ & Hstop).
  - vm_compute. reflexivity.
  - vm_compute. reflexivity.
  - vm_compute. reflexivity.
  - repeat constructor.
  - exact (Hstop "music/02.mp3" ["music/01.mp3"] InvalidPermissions eq_refl).
Defined.

Lemma download_all_tracks_files config client tracks s u s' c :
  download_all_tracks config client tracks s = (Ok u, s') →
  heap s !! config = Some c →
  ∀ track, track ∈ tracks →
    is_Some (files s' !! local_filename (cache_dir c) track).
Proof.
  unfold download_all_tracks. revert s.
  induction tracks as [|t tracks IH]; intros s E Hc track Hin.
  { by apply elem_of_nil in Hin. }
  cbn [for_each] in E. apply bind_ok in E as ([] & s1 & E1 & E).
  apply bind_ok in E1 as (c1 & ? & [-> Hc1]%deref_ok & E1).
  rewrite Hc in Hc1. injection Hc1 as <-.
  pose proof E1 as (c' & content & _ & _ & _ & Hs1)%download_file_ok.
  apply elem_of_cons in Hin as [->|Hin].
  - destruct (download_all_tracks_staged config client tracks s1 _ s' E)
      as (_ & Hkeep & _).
    apply Hkeep. rewrite Hs1. simpl. rewrite lookup_insert_eq. by eexists.
  - apply (IH s1); [done | by rewrite Hs1 | done].
Qed.

(** every file of the cache directory whose name has no slash and ends in
    .mp3 is in the listing of the cache *)
Lemma ingest_cache_lists directory name s :
  is_Some (files s !! (directory +:+ "/" +:+ name)) →
  all_chars not_slash name = true →
  PyStr.endswith name ".mp3" = true →
  ∃ tracks, ingest_cache directory s = (Ok tracks, s) ∧ name ∈ tracks.
Proof.
  intros [content Hf] Hplain Hend. eexists. split; [reflexivity|].
  apply list_elem_of_filter. split; [done|].
  unfold walk_files. apply list_elem_of_fmap.
  exists (directory +:+ "/" +:+ name). split; [by rewrite basename_join|].
  apply list_elem_of_filter. split.
  - rewrite <- append_assoc. apply prefix_append.
  - apply list_elem_of_fmap. exists (directory +:+ "/" +:+ name, content).
    split; [done|]. by apply elem_of_map_to_list.
Qed.

(** X17. What the download step stages, the listing of the cache finds:
    when the step returns, the file of every track exists, and the listing
    of the cache directory contains its name. *)
Theorem staged_files_are_listed config client tracks s u s' c track :
  download_all_tracks config client tracks s = (Ok u, s') →
  heap s !! config = Some c →
  track ∈ tracks →
  is_Some (files s' !! (cache_dir c +:+ "/" +:+ stage_name track))
  ∧ ∃ listing,
      ingest_cache (cache_dir c) s' = (Ok listing, s')
      ∧ stage_name track ∈ listing.
Proof.
  intros E Hc Hin.
  pose proof (download_all_tracks_files _ _ _ _ _ _ _ E Hc track Hin) as Hf.
  split; [done|].
  destruct (stage_name_plain track) as [Hplain Hend].
  by apply ingest_cache_lists.
Qed.

Lemma staged_files_are_listed_witness :
  let w := configured
             (sample_world
                (sample_ini "true" "track_list" standard_mask "true" "true")
                sample_bucket ∅) in
  let w' := (download_all_tracks 0%nat sample_client ["music/01.mp3"] w).2 in
  ∃ listing,
    ingest_cache "/tmp/cache" w' = (Ok listing, w')
    ∧ stage_name "music/01.mp3" ∈ listing.
Proof.
  intros w w'.
  pose (c := {| path := "/opt/sortie/conf/sortie.ini";
                environment := "default"; bucket := "tunes";
                log_to_file := true; max_logging_level := 4;
                log_file := Some "/var/log/sortie.log";
                ingestion_mode := "track_list";
                track_list := Some "/srv/tracks.json";
                cache_dir := "/tmp/cache"; sort_mask := standard_mask;
                clean_up := true; persistent_cache := true |}).
  destruct (staged_files_are_listed 0%nat sample_client ["music/01.mp3"] w tt
              w' c "music/01.mp3") as [_ Hl].
  - apply run_ok. vm_compute. reflexivity.
  - vm_compute. reflexivity.
  - apply list_elem_of_here.
  - exact Hl.
Defined.

(** ** The resolution of the target paths *)

Lemma TrackLister_init_cache config orchestrator s c :
  heap s !! config = Some c →
  ingestion_mode c = "cache" →
  (TrackLister_init config orchestrator s).2 = s.
Proof.
  intros Hc Hm. unfold TrackLister_init. rewrite bind_run.
  pose proof (Logger_init_always (same whole) "TrackLister" config s) as Hl.
  destruct (Logger_init "TrackLister" config s) as [[slog|e] s1];
    unfold same, whole in Hl; simpl in Hl; subst s1; [|done].
  rewrite bind_run, (deref_run _ _ c) by done.
  rewrite bind_run, Hm. simpl.
  rewrite bind_run, (deref_run _ _ c) by done. done.
Qed.

Lemma TrackConverter_init_ok config filepath s converted s' :
  TrackConverter_init config filepath s = (Ok converted, s') →
  s' = s
  ∧ ∃ c, heap s !! config = Some c
       ∧ local_path converted = filepath
       ∧ files s !! filepath = Some (Audio (tags converted))
       ∧ load_target_template (env s) (tags converted) (sort_mask c)
         = Ok (target_path converted).
Proof.
  unfold TrackConverter_init. intros (slog & s1 & E1 & E)%bind_ok.
  apply bind_ok in E as (tags & s2 & E2 & E).
  apply bind_ok in E as (c & s3 & E3 & E).
  apply bind_ok in E as (? & s3' & [= <- <-] & E).
  apply bind_ok in E as (target & s4 & E4 & [= <- <-]).
  unchanged_steps. split; [done|]. exists c. simpl.
  apply deref_ok in E3 as [_ Hc]. split_and!; [done..| |].
  - unfold load_tags in E2. rewrite bind_run in E2. simpl in E2.
    destruct (files s !! filepath) as [[t|]|]; try done. by injection E2 as ->.
  - unfold lift in E4. by injection E4.
Qed.

Lemma for_collect_unchanged {A B} (f : A → M B) l s ys s' :
  (∀ x, always (same whole) (f x)) →
  for_collect f l s = (Ok ys, s') →
  s' = s ∧ Forall2 (λ x y, f x s = (Ok y, s)) l ys.
Proof.
  intros Hf. revert ys. induction l as [|x l IH]; intros ys; simpl.
  - by intros [= <- <-].
  - intros (y & s1 & E1 & E)%bind_ok.
    apply bind_ok in E as (ys' & s2 & E2 & [= <- <-]).
    pose proof (always_run _ _ _ _ _ (Hf x) E1) as Hs.
    unfold same, whole in Hs. subst s1.
    destruct (IH _ E2) as [-> Hall]. split; [done|]. by constructor.
Qed.

(** what [slurp_cache] returns: one converter for each name of the listing
    of the cache, for the file of that name in the cache directory itself *)
Lemma slurp_cache_ok slog config s sorted_tracks s' :
  slurp_cache slog config s = (Ok sorted_tracks, s') →
  ∃ c listing,
    heap s !! config = Some c
    ∧ ingest_cache (cache_dir c) s = (Ok listing, s)
    ∧ Forall2 (λ name converted,
                 local_path converted = cache_dir c +:+ "/" +:+ name
                 ∧ files s !! (cache_dir c +:+ "/" +:+ name)
                   = Some (Audio (tags converted))
                 ∧ load_target_template (env s) (tags converted) (sort_mask c)
                   = Ok (target_path converted))
        listing sorted_tracks.
Proof.
  unfold slurp_cache. intros (? & s1 & (c & Hc & ->)%assign_ok & E)%bind_ok.
  set (s1 := set_heap _ s) in E.
  assert (heap s1 !! config = Some (set_ingestion_mode "cache" c)) as Hc1.
  { apply list_lookup_insert_eq. by eapply lookup_lt_Some. }
  apply bind_ok in E as (lister & s2 & E2 & E).
  pose proof (TrackLister_init_cache config None s1 _ Hc1 eq_refl) as Hs2.
  rewrite E2 in Hs2. simpl in Hs2. subst s2.
  apply bind_ok in E as (c1 & ? & [-> Hc1']%deref_ok & E).
  rewrite Hc1 in Hc1'. injection Hc1' as <-.
  apply bind_ok in E as (listing & ? & [= <- <-] & E).
  apply for_collect_unchanged in E as [-> Hall]; [|intros; always_all].
  exists c, (filter (λ file, PyStr.endswith file ".mp3" = true)
               (walk_files (cache_dir c) s)).
  split_and!; [done..|].
  eapply Forall2_impl; [exact Hall|]. intros name converted E. simpl in E.
  apply bind_ok in E as (c1 & ? & [-> Hc1']%deref_ok & E).
  rewrite Hc1 in Hc1'. injection Hc1' as <-.
  apply TrackConverter_init_ok in E as (_ & c2 & Hc2 & Hp & Hf & Ht).
  rewrite Hc1 in Hc2. injection Hc2 as <-. done.
Qed.

(** X18. When [slurp_cache] returns, it returns one converter for each name
    of the listing of the cache, in the order of the listing: its local
    path is the name put in the cache directory, its tags are those of that
    file, and its target path is the template rendered with those tags. *)
Theorem slurp_cache_resolves_the_cache slog config s sorted_tracks s' :
  slurp_cache slog config s = (Ok sorted_tracks, s') →
  ∃ c listing,
    heap s !! config = Some c
    ∧ ingest_cache (cache_dir c) s = (Ok listing, s)
    ∧ local_path <$> sorted_tracks
      = (λ name, cache_dir c +:+ "/" +:+ name) <$> listing
    ∧ Forall (λ converted,
                files s !! local_path converted
                = Some (Audio (tags converted))
                ∧ load_target_template (env s) (tags converted) (sort_mask c)
                  = Ok (target_path converted))
        sorted_tracks.
Proof.
  intros (c & listing & Hc & Hl & Hall)%slurp_cache_ok.
  exists c, listing. split_and!; [done..| |].
  - clear Hl. induction Hall as [|name converted listing l (Hp & _) _ IH];
      [done|]. cbn [fmap list_fmap]. by rewrite Hp, <- IH.
  - clear Hl. induction Hall as [|name converted listing l (Hp & Hf & Ht) _ IH];
      [done|]. constructor; [|done]. by rewrite Hp.
Qed.

Lemma slurp_cache_resolves_the_cache_witness :
  let w := configured
             (sample_world
                (sample_ini "true" "cache" standard_mask "true" "true")
                sample_bucket {[ "/tmp/cache/a.mp3" := tagged "A" "B" "C" ]}) in
  (slurp_cache (s3_slog sample_client) 0%nat w).1
  = Ok [{| local_path := "/tmp/cache/a.mp3";
           tags := {| artist := Some "A"; album := Some "B";
                      title := Some "C" |};
           target_path := "A/B/C.mp3" |}]
  ∧ files w !! "/tmp/cache/a.mp3" = Some (tagged "A" "B" "C").
Proof.
  intros w.
  assert ((slurp_cache (s3_slog sample_client) 0%nat w).1
          = Ok [{| local_path := "/tmp/cache/a.mp3";
                   tags := {| artist := Some "A"; album := Some "B";
                              title := Some "C" |};
                   target_path := "A/B/C.mp3" |}]) as Hrun
    by (vm_compute; reflexivity).
  split; [exact Hrun|].
  destruct (slurp_cache_resolves_the_cache (s3_slog sample_client) 0%nat w _ _
              (run_ok _ _ _ Hrun)) as (c & listing & _ & _ & _ & Hall).
  apply Forall_cons in Hall as [[Hf _] _]. exact Hf.
Defined.

Lemma ingest_cache_lists_path directory p s :
  is_Some (files s !! p) →
  String.prefix (directory +:+ "/") p = true →
  PyStr.endswith (basename p) ".mp3" = true →
  ∃ tracks, ingest_cache directory s = (Ok tracks, s) ∧ basename p ∈ tracks.
Proof.
  intros [content Hf] Hpre Hend. eexists. split; [reflexivity|].
  apply list_elem_of_filter. split; [done|].
  unfold walk_files. apply list_elem_of_fmap.
  exists p. split; [done|]. apply list_elem_of_filter. split; [done|].
  apply list_elem_of_fmap. exists (p, content).
  split; [done|]. by apply elem_of_map_to_list.
Qed.

(** [slurp_cache] does not return when the listing of the cache has a name
    for which the cache directory itself has no file with tags *)
Lemma slurp_cache_stops slog config s c name listing :
  heap s !! config = Some c →
  ingest_cache (cache_dir c) s = (Ok listing, s) →
  name ∈ listing →
  (∀ t, files s !! (cache_dir c +:+ "/" +:+ name) ≠ Some (Audio t)) →
  ∃ e, (slurp_cache slog config s).1 = Raise e.
Proof.
  intros Hc Hl Hin Hbad.
  destruct (slurp_cache slog config s) as [[sorted_tracks|e] s'] eqn:E;
    [|by exists e].
  apply slurp_cache_ok in E as (c' & listing' & Hc' & Hl' & Hall).
  rewrite Hc in Hc'. injection Hc' as <-.
  rewrite Hl in Hl'. injection Hl' as <-.
  apply list_elem_of_lookup_1 in Hin as [i Hi].
  destruct (Forall2_lookup_l _ _ _ _ _ Hall Hi) as (converted & _ & _ & Hf & _).
  by destruct (Hbad (tags converted)).
Qed.

(** X19. One file of the cache that ends in .mp3 and that the tag reader
    rejects stops the resolution: [slurp_cache] raises, whatever the other
    files of the cache are, so none of them is resolved. *)
Theorem unreadable_file_stops_the_resolution slog config s c name :
  heap s !! config = Some c →
  files s !! (cache_dir c +:+ "/" +:+ name) = Some Unreadable →
  all_chars not_slash name = true →
  PyStr.endswith name ".mp3" = true →
  ∃ e, (slurp_cache slog config s).1 = Raise e.
Proof.
  intros Hc Hf Hplain Hend.
  destruct (ingest_cache_lists (cache_dir c) name s) as (listing & Hl & Hin);
    [by rewrite Hf | done..|].
  eapply slurp_cache_stops; [done..|]. intros t. by rewrite Hf.
Qed.

Lemma unreadable_file_stops_the_resolution_witness :
  let w := configured
             (sample_world
                (sample_ini "true" "cache" standard_mask "true" "true")
                sample_bucket
                {[ "/tmp/cache/a.mp3" := tagged "A" "B" "C";
                   "/tmp/cache/b.mp3" := Unreadable ]}) in
  ∃ e, (slurp_cache (s3_slog sample_client) 0%nat w).1 = Raise e.
Proof.
  intros w.
  pose (c := {| path := "/opt/sortie/conf/sortie.ini";
                environment := "default"; bucket := "tunes";
                log_to_file := true; max_logging_level := 4;
                log_file := Some "/var/log/sortie.log";
                ingestion_mode := "cache"; track_list := None;
                cache_dir := "/tmp/cache"; sort_mask := standard_mask;
                clean_up := true; persistent_cache := true |}).
  apply (unreadable_file_stops_the_resolution (s3_slog sample_client) 0%nat w
           c "b.mp3").
  - vm_compute. reflexivity.
  - vm_compute. reflexivity.
  - reflexivity.
  - reflexivity.
Defined.

(** X20. The cache has to be flat. A file that ends in .mp3 in a directory
    below the cache directory is listed by its name alone, and the
    resolution looks for that name in the cache directory itself: when no
    file of that name is there, [slurp_cache] raises. *)
Theorem nested_file_stops_the_resolution slog config s c sub name :
  heap s !! config = Some c →
  is_Some (files s !! (cache_dir c +:+ "/" +:+ sub +:+ "/" +:+ name)) →
  files s !! (cache_dir c +:+ "/" +:+ name) = None →
  all_chars not_slash name = true →
  PyStr.endswith name ".mp3" = true →
  ∃ e, (slurp_cache slog config s).1 = Raise e.
Proof.
  intros Hc Hf Hnone Hplain Hend.
  assert (basename (cache_dir c +:+ "/" +:+ sub +:+ "/" +:+ name) = name)
    as Hb.
  { rewrite <- (append_assoc "/" sub), <- (append_assoc (cache_dir c)).
    by apply basename_join. }
  destruct (ingest_cache_lists_path (cache_dir c)
              (cache_dir c +:+ "/" +:+ sub +:+ "/" +:+ name) s)
    as (listing & Hl & Hin); [done | | by rewrite Hb |].
  { rewrite <- append_assoc. apply prefix_append. }
  rewrite Hb in Hin.
  eapply slurp_cache_stops; [done..|]. intros t. by rewrite Hnone.
Qed.

Lemma nested_file_stops_the_resolution_witness :
  let w := configured
             (sample_world
                (sample_ini "true" "cache" standard_mask "true" "true")
                sample_bucket
                {[ "/tmp/cache/album/a.mp3" := tagged "A" "B" "C" ]}) in
  ∃ e, (slurp_cache (s3_slog sample_client) 0%nat w).1 = Raise e.
Proof.
  intros w.
  pose (c := {| path := "/opt/sortie/conf/sortie.ini";
                environment := "default"; bucket := "tunes";
                log_to_file := true; max_logging_level := 4;
                log_file := Some "/var/log/sortie.log";
                ingestion_mode := "cache"; track_list := None;
                cache_dir := "/tmp/cache"; sort_mask := standard_mask;
                clean_up := true; persistent_cache := true |}).
  apply (nested_file_stops_the_resolution (s3_slog sample_client) 0%nat w c
           "album" "a.mp3").
  - vm_compute. reflexivity.
  - vm_compute. by eexists.
  - vm_compute. reflexivity.
  - reflexivity.
  - reflexivity.
Defined.

(** ** The calls of a run, in their order *)

#[global] Instance extends_preorder P : PreOrder (extends P).
Proof.
  split.
  - intros s. exists []. by rewrite app_nil_r.
  - intros s1 s2 s3 (t1 & E1 & H1) (t2 & E2 & H2). exists (t1 ++ t2)%list.
    split; [by rewrite E2, E1, app_assoc | by apply Forall_app].
Qed.

Lemma extends_of_same P s s' : trace s' = trace s → extends P s s'.
Proof. intros E. exists []. by rewrite app_nil_r. Qed.

Lemma record_call_extends (P : Call → Prop) c :
  P c → always (extends P) (record_call c).
Proof. intros Hc s. exists [c]. split; [done | by apply Forall_singleton]. Qed.

Lemma alloc_extends P c : always (extends P) (alloc c).
Proof. intros s. by apply extends_of_same. Qed.

#[global] Hint Resolve alloc_extends : always.
#[global] Hint Extern 1 (always (extends _) (record_call _)) =>
  apply record_call_extends; first [reflexivity | simpl; lia] : always.
#[global] Hint Extern 1 (always (extends _) (modify _)) =>
  apply always_modify; intros ?; apply extends_of_same; done : always.

Lemma Config_init_extends P filepath : always (extends P) (Config_init filepath).
Proof. always_all. Qed.

(** [slurp_cache] makes no call: the lister that it builds is built in the
    mode cache, which it has just written *)
Lemma slurp_cache_trace slog config :
  always (same trace) (slurp_cache slog config).
Proof.
  intros s. unfold slurp_cache. rewrite bind_run.
  assert (always (same trace) (assign config (set_ingestion_mode "cache")))
    as Ha by always_all.
  specialize (Ha s).
  destruct (assign config (set_ingestion_mode "cache") s) as [[[]|e] s1] eqn:E;
    [|done].
  apply assign_ok in E as (c & Hc & E). rewrite bind_run.
  assert (heap s1 !! config = Some (set_ingestion_mode "cache" c)) as Hc1.
  { subst s1. simpl. apply list_lookup_insert_eq. by eapply lookup_lt_Some. }
  pose proof (TrackLister_init_cache config None s1 _ Hc1 eq_refl) as Hl.
  destruct (TrackLister_init config None s1) as [[lister|e] s2];
    simpl in Hl; subst s2; [|done].
  etrans; [exact Ha|]. simpl. refine ((_ : always (same trace) _) s1).
  always_all.
Qed.

Lemma slurp_cache_extends P slog config :
  always (extends P) (slurp_cache slog config).
Proof. intros s. apply extends_of_same, slurp_cache_trace. Qed.

Lemma rmtree_extends P directory : always (extends P) (rmtree directory).
Proof. always_all. Qed.

Lemma TrackLister_init_calls config orchestrator :
  always (extends (λ c, phase c = 0%nat)) (TrackLister_init config orchestrator).
Proof. always_all. Qed.

Lemma download_all_tracks_calls config client tracks :
  always (extends (λ c, phase c = 1%nat))
    (download_all_tracks config client tracks).
Proof. always_all. Qed.

Lemma upload_all_tracks_calls client tracks :
  always (extends (λ c, phase c = 2%nat)) (upload_all_tracks client tracks).
Proof. always_all. Qed.

Lemma delete_source_tracks_calls client tracks :
  always (extends (λ c, phase c = 3%nat)) (delete_source_tracks client tracks).
Proof. always_all. Qed.

Lemma in_order_app k t1 t2 :
  Forall (λ c, phase c = k) t1 → in_order k t2 → in_order k (t1 ++ t2).
Proof.
  intros H1 [Hs Hk]. split.
  - induction t1 as [|c t1 IH]; [done|].
    apply Forall_cons in H1 as [Hc H1]. simpl.
    apply SSorted_cons; [by apply IH|]. apply Forall_app. split.
    + eapply Forall_impl; [exact H1|]. simpl. intros c' Hc'. lia.
    + eapply Forall_impl; [exact Hk|]. simpl. intros c' Hc'. lia.
  - apply Forall_app. split; [|done].
    eapply Forall_impl; [exact H1|]. simpl. intros c Hc. lia.
Qed.

Lemma ordered_of_extends {A} k (m : M A) :
  always (extends (λ c, phase c = k)) m → ordered_from k m.
Proof.
  intros Hm s. destruct (Hm s) as (t & E & Ht). exists t. split; [done|].
  rewrite <- (app_nil_r t). apply in_order_app; [done|]. split; constructor.
Qed.

Lemma ordered_bind {A B} k (m : M A) (f : A → M B) :
  always (extends (λ c, phase c = k)) m →
  (∀ a, ordered_from k (f a)) →
  ordered_from k (m ≫= f).
Proof.
  intros Hm Hf s. rewrite bind_run.
  pose proof (ordered_of_extends k m Hm s) as Hs.
  destruct (Hm s) as (t1 & E1 & H1).
  destruct (m s) as [[a|e] s1]; [|done]. simpl in E1.
  destruct (Hf a s1) as (t2 & E2 & H2). exists (t1 ++ t2)%list.
  split; [by rewrite E2, E1, app_assoc | by apply in_order_app].
Qed.

Lemma ordered_weaken {A} k k' (m : M A) :
  (k ≤ k')%nat → ordered_from k' m → ordered_from k m.
Proof.
  intros Hk Hm s. destruct (Hm s) as (t & E & Hs & Ht). exists t.
  split; [done|]. split; [done|]. eapply Forall_impl; [exact Ht|].
  simpl. intros c Hc. lia.
Qed.

(** X21. The calls that a run makes to the store, whether the run completes
    or stops on an error, come in the order of the pipeline: the listing of
    the bucket, then the downloads, then the uploads, then the deletes. No
    object is downloaded after the first upload, and none is listed after
    the first download. *)
Theorem Main_calls_in_order s :
  ∃ t, trace (Main s).2 = (trace s ++ t)%list
       ∧ StronglySorted (λ c c', (phase c ≤ phase c')%nat) t.
Proof.
  cut (ordered_from 0 Main).
  { intros H. destruct (H s) as (t & E & Hs & _). by exists t. }
  unfold Main.
  apply ordered_bind; [always_all|]; intros s0.
  apply ordered_bind; [apply Config_init_extends|]; intros config.
  apply ordered_bind; [always_all|]; intros slog.
  apply ordered_bind; [always_all|]; intros client.
  apply ordered_bind; [always_all|]; intros c.
  apply ordered_bind;
    [destruct (String.eqb _ _); apply TrackLister_init_calls|];
    intros source_lister.
  apply (ordered_weaken 0 1); [lia|].
  apply ordered_bind; [always_all|]; intros c1.
  apply ordered_bind;
    [destruct (negb _); [apply download_all_tracks_calls | always_all]|];
    intros [].
  apply (ordered_weaken 1 2); [lia|].
  apply ordered_bind; [apply slurp_cache_extends|]; intros cache_list.
  apply ordered_bind; [apply upload_all_tracks_calls|]; intros [].
  apply (ordered_weaken 2 3); [lia|].
  apply ordered_bind; [always_all|]; intros c2.
  apply ordered_bind;
    [destruct (_ && _); [apply delete_source_tracks_calls | always_all]|];
    intros [].
  apply ordered_bind; [always_all|]; intros c3.
  apply ordered_of_extends.
  destruct (negb _); [apply rmtree_extends | always_all].
Qed.

(** what follows the downloads makes no call of an earlier phase *)
Lemma Main_tail_calls slog config client tracks :
  always (extends (λ c, (2 ≤ phase c)%nat))
    (cache_list ← slurp_cache slog config;
     upload_all_tracks client cache_list;;
     c ← deref config;
     (if clean_up c && negb (String.eqb (ingestion_mode c) "cache")
      then delete_source_tracks client tracks
      else mret tt);;
     c ← deref config;
     (if negb (persistent_cache c) then rmtree (cache_dir c) else mret tt)).
Proof.
  apply always_bind; try tc_solve; [apply slurp_cache_extends|].
  intros cache_list. always_all.
Qed.

Lemma Config_init_env filepath : always (same env) (Config_init filepath).
Proof. always_all. Qed.

Lemma Config_init_object filepath s config s1 :
  Config_init filepath s = (Ok config, s1) →
  ∃ parser c,
    ini_files (env s) !! filepath = Some parser
    ∧ heap s1 !! config = Some c
    ∧ env s1 = env s ∧ trace s1 = trace s
    ∧ ini_option parser "ingestion" "mode" = Some (ingestion_mode c)
    ∧ (log_to_file c = true → is_Some (log_file c)).
Proof.
  intros E. pose proof (always_run _ _ _ _ _ (Config_init_env filepath) E) as He.
  apply Config_init_ok in E
    as (parser & c & Hp & -> & Hh & _ & Ht & _ & _ & _ & _ & _ & _ & _ & Hl
        & Hm & _).
  exists parser, c. split_and!; try done.
  - rewrite Hh. apply list_lookup_middle. done.
  - intros Hb. rewrite Hb in Hl. by destruct Hl.
Qed.

Lemma Main_in_cache_mode s ini :
  ini_files (env s) !! (script_dir (env s) +:+ "/conf/sortie.ini") = Some ini →
  ini_option ini "ingestion" "mode" = Some "cache" →
  extends (λ c, (2 ≤ phase c)%nat) s (Main s).2.
Proof.
  intros Hini Hmode. unfold Main. rewrite bind_run.
  change (get s) with (Ok s, s). cbv beta iota. rewrite bind_run.
  pose proof (Config_init_trace (script_dir (env s) +:+ "/conf/sortie.ini") s)
    as Ht.
  destruct (Config_init _ s) as [[config|e] s1] eqn:E1;
    [|by apply extends_of_same].
  apply Config_init_object in E1 as (parser & c & Hp & Hc & _ & _ & Hm & _).
  rewrite Hini in Hp. injection Hp as <-.
  rewrite Hmode in Hm. injection Hm as Hm.
  etrans; [by apply extends_of_same|]. clear Ht.
  rewrite bind_run.
  pose proof (Logger_init_always (same whole) "sortie" config s1) as Hl.
  destruct (Logger_init "sortie" config s1) as [[slog|e] s2];
    unfold same, whole in Hl; simpl in Hl; subst s2; [|reflexivity].
  rewrite bind_run.
  pose proof (S3io_init_always (same whole) config s1) as Hl.
  destruct (S3io_init config s1) as [[client|e] s2];
    unfold same, whole in Hl; simpl in Hl; subst s2; [|reflexivity].
  rewrite bind_run, (deref_run _ _ c) by done.
  rewrite <- Hm. simpl (String.eqb "cache" "dynamic"). cbv iota.
  rewrite bind_run.
  pose proof (TrackLister_init_cache config None s1 c Hc (eq_sym Hm)) as Hl.
  destruct (TrackLister_init config None s1) as [[source_lister|e] s2];
    simpl in Hl; subst s2; [|reflexivity].
  rewrite bind_run, (deref_run _ _ c) by done.
  rewrite <- Hm. simpl (negb (String.eqb "cache" "cache")). cbv iota.
  rewrite bind_run. change (mret (M := M) tt s1) with (Ok tt, s1).
  cbv beta iota.
  apply Main_tail_calls.
Qed.

(** X22. A run in the mode cache makes no other call to the store than
    uploads, whether it completes or stops on an error: the bucket is not
    listed and nothing is downloaded from it or deleted in it. *)
Theorem cache_mode_only_uploads s ini :
  ini_files (env s) !! (script_dir (env s) +:+ "/conf/sortie.ini") = Some ini →
  ini_option ini "ingestion" "mode" = Some "cache" →
  ∃ t, trace (Main s).2 = (trace s ++ t)%list
       ∧ Forall (λ c, ∃ file bucket key, c = Upload file bucket key) t.
Proof.
  intros Hini Hmode.
  destruct (Main_in_cache_mode s ini Hini Hmode) as (t & E & Ht).
  exists t. split; [done|].
  pose proof (Main_deletes s) as Hd. unfold same, deletes in Hd.
  rewrite E, filter_app in Hd.
  rewrite <- (app_nil_r (filter _ (trace s))) in Hd at 2.
  apply app_inv_head in Hd.
  apply Forall_forall. intros c Hin.
  pose proof (proj1 (Forall_forall _ _) Ht c Hin) as Hp.
  destruct c as [b|b k f|f b k|b k]; simpl in Hp; try lia; [by eauto|].
  assert (Delete b k ∈ filter (λ c, is_delete c = true) t) as Hf
    by (by apply list_elem_of_filter).
  rewrite Hd in Hf. by apply elem_of_nil in Hf.
Qed.

Lemma cache_mode_only_uploads_witness :
  let file := "/tmp/cache/00c52942-9caa-5ad8-a2d1-592afeef78a2.mp3" in
  let w := sample_world
             (sample_ini "true" "cache" standard_mask "true" "true")
             sample_bucket {[ file := tagged "A" "B" "C" ]} in
  trace (Main w).2 = [Upload file "tunes" "A/B/C.mp3"]
  ∧ ∃ t, trace (Main w).2 = (trace w ++ t)%list
         ∧ Forall (λ c, ∃ file bucket key, c = Upload file bucket key) t.
Proof.
  intros file w. split; [vm_compute; reflexivity|].
  apply (cache_mode_only_uploads w
           (sample_ini "true" "cache" standard_mask "true" "true")).
  - exact (lookup_singleton_eq _ _).
  - vm_compute. reflexivity.
Defined.



(** ** Templates without a variable *)

Lemma lex_plain s racc :
  all_chars plain s = true →
  Jinja.lex Jinja.InData racc s
  = Some (Jinja.data (reverse (String.list_ascii_of_string s) ++ racc)).
Proof.
  revert racc. induction s as [|c s IH]; intros racc Hs; [done|].
  simpl in Hs. apply andb_true_iff in Hs as [Hc Hs].
  unfold plain in Hc. apply andb_true_iff in Hc as [Hc1 Hc2].
  apply negb_true_iff in Hc1, Hc2.
  cbn [String.list_ascii_of_string]. rewrite reverse_cons, <- app_assoc.
  change ([c] ++ racc)%list with (c :: racc).
  destruct s as [|c' r].
  - simpl. by rewrite Hc2.
  - rewrite <- (IH (c :: racc) Hs). simpl. by rewrite Hc1, Hc2.
Qed.

(** X24. A sort mask without an opening brace and without a line break is
    the target of every track: it renders as itself, whatever the tags of
    the file are, so all the tracks of a run are uploaded under one key. *)
Theorem mask_without_variable_renders_as_itself e tags ref :
  all_chars plain ref = true →
  load_target_template e tags ref = Ok ref.
Proof.
  intros Href. unfold load_target_template, Jinja.Template.
  rewrite (lex_plain ref [] Href), app_nil_r. f_equal.
  unfold Jinja.data.
  destruct (reverse (String.list_ascii_of_string ref)) as [|c l] eqn:E.
  - apply (f_equal reverse) in E. rewrite reverse_involutive in E.
    by destruct ref.
  - rewrite <- E, reverse_involutive, String.string_of_list_ascii_of_string.
    simpl. apply append_empty_r.
Qed.

Lemma mask_without_variable_renders_as_itself_witness :
  load_target_template (sample_env ∅) no_tags "sorted/track.mp3"
  = Ok "sorted/track.mp3".
Proof.
  apply (mask_without_variable_renders_as_itself (sample_env ∅) no_tags
           "sorted/track.mp3").
  reflexivity.
Defined.

(** ** Tracks that resolve to one key *)

Lemma upload_file_effect client local_filename object_name s u s' :
  upload_file client local_filename object_name s = (Ok u, s') →
  is_Some (files s !! local_filename)
  ∧ object_at object_name s' = files s !! local_filename
  ∧ (∀ key, key ≠ object_name → object_at key s' = object_at key s)
  ∧ files s' = files s.
Proof.
  intros (c & content & _ & _ & Hf & ->)%upload_file_ok.
  unfold object_at. simpl. rewrite Hf. split_and!; [by eexists | | | done].
  - apply object_at_put.
  - intros key Hk. by apply object_at_put_ne.
Qed.

Lemma upload_all_tracks_other_keys client tracks key s u s' :
  upload_all_tracks client tracks s = (Ok u, s') →
  Forall (λ t, target_path t ≠ key) tracks →
  object_at key s' = object_at key s.
Proof.
  unfold upload_all_tracks. revert s.
  induction tracks as [|t tracks IH]; intros s E Hk.
  - by injection E as _ <-.
  - simpl in E. apply bind_ok in E as ([] & s1 & E1 & E).
    apply Forall_cons in Hk as [Ht Hk].
    apply upload_file_effect in E1 as (_ & _ & Ho & _).
    rewrite (IH s1 E Hk). apply Ho. congruence.
Qed.

(** X25. When two tracks of the upload step have the same target path, the
    later one wins: once the step returns, the object under a target path is
    the file of the last track of the list that has this target path. *)
Theorem upload_step_last_track_wins client before track after s u s' :
  upload_all_tracks client (before ++ track :: after) s = (Ok u, s') →
  Forall (λ t, target_path t ≠ target_path track) after →
  is_Some (files s !! local_path track)
  ∧ object_at (target_path track) s' = files s !! local_path track.
Proof.
  unfold upload_all_tracks. revert s.
  induction before as [|b before IH]; intros s E Hafter; simpl in E;
    apply bind_ok in E as ([] & s1 & E1 & E);
    apply upload_file_effect in E1 as (Hsome & Ho & _ & Hf).
  - split; [done|]. rewrite <- Ho.
    by apply (upload_all_tracks_other_keys client after _ s1 u).
  - rewrite <- Hf. by apply IH.
Qed.

Lemma upload_step_last_track_wins_witness :
  let w := configured
             (sample_world
                (sample_ini "true" "cache" "{{artist}}.mp3" "true" "true")
                sample_bucket
                {[ "/tmp/cache/a.mp3" := tagged "A" "B" "C";
                   "/tmp/cache/b.mp3" := tagged "A" "B" "D" ]}) in
  let a := {| local_path := "/tmp/cache/a.mp3";
              tags := {| artist := Some "A"; album := Some "B";
                         title := Some "C" |};
              target_path := "A.mp3" |} in
  let b := {| local_path := "/tmp/cache/b.mp3";
              tags := {| artist := Some "A"; album := Some "B";
                         title := Some "D" |};
              target_path := "A.mp3" |} in
  (slurp_cache (s3_slog sample_client) 0%nat w).1 = Ok [a; b]
  ∧ object_at "A.mp3" (upload_all_tracks sample_client [a; b] w).2
    = Some (tagged "A" "B" "D").
Proof.
  intros w a b. split; [vm_compute; reflexivity|].
  assert (files w !! "/tmp/cache/b.mp3" = Some (tagged "A" "B" "D")) as <-
    by (vm_compute; reflexivity).
  apply (upload_step_last_track_wins sample_client [a] b [] w tt).
  - apply run_ok. vm_compute. reflexivity.
  - constructor.
Defined.
